(** * Finite State Entropy coder ([fse.py]): embedding and verification

    The Python module defines an ordered statistics table
    ([Statistics], an [OrderedDict] with a running [total]) and a coder
    ([FSECoder]) whose [encode] folds a symbol sequence into one unbounded
    integer and whose [decode] unfolds it again.

    Python integers are unbounded, so they are [Z]; Python's [divmod] is
    floor division, which is what [Z.div] and [Z.modulo] compute.  Exceptions
    are the [Raise] branch of a small error monad.  The [while] loop of
    [decode] is driven by fuel: [None] means that the fuel ran out, never
    that the loop stopped. *)

From Stdlib Require Import ZArith Lia.
From stdpp Require Import base list strings.

Local Open Scope Z_scope.

(** ** Exceptions and the error monad *)

(** The exceptions the module can raise.  [KeyError] comes from
    [self.stats[symb]], [ZeroDivisionError] from [divmod], [IndexError] from
    list indexing, and [ValueError] is the explicit [raise] of [get_by_cdf]
    (it carries the offending value, which the source formats into the
    message). *)
Inductive exn (Symb : Type) : Type :=
| KeyError (key : Symb)
| ZeroDivisionError
| IndexError
| ValueError (value : Z).

Arguments KeyError {Symb} key.
Arguments ZeroDivisionError {Symb}.
Arguments IndexError {Symb}.
Arguments ValueError {Symb} value.

Inductive result (E A : Type) : Type :=
| Ok (a : A)
| Raise (e : E).

Arguments Ok {E A} a.
Arguments Raise {E A} e.

#[global] Instance result_ret {E} : MRet (result E) := fun _ a => Ok a.

#[global] Instance result_bind {E} : MBind (result E) := fun _ _ f m =>
  match m with
  | Ok a => f a
  | Raise e => Raise e
  end.

(** [divmod(a, b)] on Python integers. *)
Definition divmod {Symb} (a b : Z) : result (exn Symb) (Z * Z) :=
  if decide (b = 0) then Raise ZeroDivisionError else Ok (a / b, a mod b).

(** ** [bisect.bisect_right] *)

(** The standard library's loop:
    [while lo < hi: mid = (lo+hi)//2; if x < a[mid]: hi = mid else: lo = mid+1]
    and then [return lo].  Every iteration shrinks [hi - lo], so [hi - lo]
    units of fuel are always enough (lemma [bisect_loop_spec] below). *)
Fixpoint bisect_loop {Symb} (fuel : nat) (a : list Z) (x : Z) (lo hi : nat)
  : result (exn Symb) nat :=
  match fuel with
  | O => Ok lo
  | S fuel' =>
      if decide (lo < hi)%nat then
        let mid := ((lo + hi) / 2)%nat in
        match a !! mid with
        | None => Raise IndexError
        | Some am =>
            if decide (x < am) then bisect_loop fuel' a x lo mid
            else bisect_loop fuel' a x (S mid) hi
        end
      else Ok lo
  end.

Definition bisect_right {Symb} (a : list Z) (x : Z) : result (exn Symb) nat :=
  bisect_loop (length a) a x 0%nat (length a).

(** The two halves of the binary search invariant.  Neither needs the list
    to be sorted. *)
Definition le_before (a : list Z) (x : Z) (i : nat) : Prop :=
  i = 0%nat \/ exists y, a !! (i - 1)%nat = Some y /\ y <= x.

Definition lt_at (a : list Z) (x : Z) (i : nat) : Prop :=
  i = length a \/ exists y, a !! i = Some y /\ x < y.

(** ** The statistics table and the coder *)

Section FSE.

Context {Symb : Type} `{EqDecision Symb}.

Abbreviation res := (result (exn Symb)).

(** One value of the table: the dict [{'symb': .., 'prob': .., 'cdf': ..}]. *)
Record SymbolStat : Type := mkStat { symb : Symb; prob : Z; cdf : Z }.

(** [Statistics(OrderedDict)]: the entries in insertion order and the
    attribute [total]. *)
Record Statistics : Type := mkStatistics {
  items : list (Symb * SymbolStat);
  total : Z
}.

(** [d[k] = v] on an ordered dictionary: an existing key keeps its place and
    gets the new value, a new key goes to the end. *)
Fixpoint setitem (d : list (Symb * SymbolStat)) (k : Symb) (v : SymbolStat)
  : list (Symb * SymbolStat) :=
  match d with
  | [] => [(k, v)]
  | (k', v') :: d' =>
      if decide (k' = k) then (k', v) :: d' else (k', v') :: setitem d' k v
  end.

(** [d[k]]: the value, or [KeyError]. *)
Fixpoint getitem (d : list (Symb * SymbolStat)) (k : Symb) : res SymbolStat :=
  match d with
  | [] => Raise (KeyError k)
  | (k', v') :: d' => if decide (k' = k) then Ok v' else getitem d' k
  end.

Definition values (self : Statistics) : list SymbolStat := (items self).*2.

(** One iteration of the constructor's loop. *)
Definition init_step (self : Statistics) (kv : Symb * Z) : Statistics :=
  let '(s, p) := kv in
  {| items := setitem (items self) s {| symb := s; prob := p; cdf := total self |};
     total := total self + p |}.

(** [Statistics.__init__]: [prob_dict.items()] is the list of pairs of the
    mapping, in its order. *)
Definition Statistics_init (prob_dict : list (Symb * Z)) : Statistics :=
  fold_left init_step prob_dict {| items := []; total := 1 |}.

(** [Statistics.get_by_cdf]. *)
Definition get_by_cdf (self : Statistics) (v : Z) : res SymbolStat :=
  let vals := values self in
  idx ← bisect_right (cdf <$> vals) v;
  if decide (idx = 0%nat) then Raise (ValueError v)
  else match vals !! (idx - 1)%nat with
       | Some obj => Ok obj
       | None => Raise IndexError
       end.

Record FSECoder : Type := mkCoder { stats : Statistics }.

Definition FSECoder_init (probs : list (Symb * Z)) : FSECoder :=
  {| stats := Statistics_init probs |}.

(** The body of [encode]'s [for] loop. *)
Definition encode_step (self : FSECoder) (enc : Z) (s : Symb) : res Z :=
  st ← getitem (items (stats self)) s;
  '(d, m) ← divmod enc (prob st);
  Ok (total (stats self) * d + m + cdf st).

Fixpoint encode_loop (self : FSECoder) (enc : Z) (symbs : list Symb) : res Z :=
  match symbs with
  | [] => Ok enc
  | s :: symbs' => enc' ← encode_step self enc s; encode_loop self enc' symbs'
  end.

(** [FSECoder.encode]. *)
Definition encode (self : FSECoder) (symbs : list Symb) : res Z :=
  encode_loop self 0 symbs.

(** The body of [decode]'s [while] loop: the next accumulator and the symbol
    that is inserted at the front. *)
Definition decode_step (self : FSECoder) (enc : Z) : res (Z * Symb) :=
  '(d, m) ← divmod enc (total (stats self));
  st ← get_by_cdf (stats self) m;
  Ok (prob st * d + m - cdf st, symb st).

(** [while enc > 0: ...; symbs.insert(0, stats['symb'])] with the output
    list as accumulator. *)
Fixpoint decode_loop (fuel : nat) (self : FSECoder) (enc : Z) (symbs : list Symb)
  : option (res (list Symb)) :=
  if decide (0 < enc) then
    match fuel with
    | O => None
    | S fuel' =>
        match decode_step self enc with
        | Raise e => Some (Raise e)
        | Ok (enc', s) => decode_loop fuel' self enc' (s :: symbs)
        end
    end
  else Some (Ok symbs).

(** [FSECoder.decode] run for at most [fuel] iterations. *)
Definition decode (fuel : nat) (self : FSECoder) (enc : Z) : option (res (list Symb)) :=
  decode_loop fuel self enc [].

End FSE.

Arguments SymbolStat Symb : clear implicits.
Arguments Statistics Symb : clear implicits.
Arguments FSECoder Symb : clear implicits.

(** ** The table of the mapping [{'a': 1, 'b': 1}] *)

Definition probs_ab : list (string * Z) := [("a"%string, 1); ("b"%string, 1)].
Definition coder_ab : FSECoder string := FSECoder_init probs_ab.

(** Mappings that carry a frequency that is not positive. *)
Definition probs_zero : list (string * Z) := [("a"%string, 0)].
Definition probs_neg : list (string * Z) := [("a"%string, 3); ("b"%string, -2)].

(** ** Vocabulary of the statements *)

Section Vocabulary.

Context {Symb : Type}.

(** The half-open range [[cdf, cdf + prob)] that an entry owns. *)
Definition in_range (st : SymbolStat Symb) (v : Z) : Prop :=
  cdf st <= v < cdf st + prob st.

(** The sum of the frequencies of a mapping. *)
Definition sum_probs (probs : list (Symb * Z)) : Z :=
  foldr (fun kv acc => kv.2 + acc) 0 probs.

(** The sum of the frequencies stored in a list of entries. *)
Definition span (l : list (SymbolStat Symb)) : Z :=
  foldr (fun st acc => prob st + acc) 0 l.

(** The entries that lie one after the other from [start] on, one per pair
    of the mapping.  Lemma [Statistics_init_layout] shows that the
    constructor computes exactly this for a mapping (distinct keys). *)
Fixpoint layout (start : Z) (probs : list (Symb * Z))
  : list (Symb * SymbolStat Symb) :=
  match probs with
  | [] => []
  | (s, p) :: probs' => (s, mkStat s p start) :: layout (start + p) probs'
  end.

(** Entries with positive frequencies that tile the integers from [t] on
    without gap. *)
Fixpoint tiles_from (t : Z) (l : list (SymbolStat Symb)) : Prop :=
  match l with
  | [] => True
  | st :: l' => cdf st = t /\ 0 < prob st /\ tiles_from (t + prob st) l'
  end.

(** What the constructor guarantees for positive frequencies even when a
    key is repeated: every entry lies inside [[1, total)]. *)
Definition bounded_table (st : Statistics Symb) : Prop :=
  1 <= total st /\
  Forall (fun e => 1 <= cdf e /\ 0 < prob e /\ cdf e + prob e <= total st)
         (values st).

(** The table invariant: the entries tile [[1, total)]. *)
Definition tiled (st : Statistics Symb) : Prop :=
  tiles_from 1 (values st) /\ total st = 1 + span (values st).

(** Every entry is stored under its own symbol. *)
Definition keyed (st : Statistics Symb) : Prop :=
  forall k e, (k, e) ∈ items st -> symb e = k.

(** The symbols of the table's alphabet. *)
Definition keys (st : Statistics Symb) : list Symb := (items st).*1.

(** The value lies in no entry's range. *)
Definition outside_all (st : Statistics Symb) (v : Z) : Prop :=
  forall e, e ∈ values st -> ~ in_range e v.

(** The call raised the [ValueError] of [get_by_cdf]. *)
Definition is_invalid_code {A} (r : result (exn Symb) A) : Prop :=
  exists v, r = Raise (ValueError v).

(** A mapping all of whose frequencies are positive. *)
Definition positive_probs (probs : list (Symb * Z)) : Prop :=
  Forall (fun kv => 0 < kv.2) probs.

End Vocabulary.

(** ** [naive_probs] and [collections.Counter] *)

Section Counter.

Context {Symb : Type} `{EqDecision Symb}.

(** [d.get(k, default)] on an ordered dictionary of integers. *)
Fixpoint dict_get (d : list (Symb * Z)) (k : Symb) (default : Z) : Z :=
  match d with
  | [] => default
  | (k', v') :: d' => if decide (k' = k) then v' else dict_get d' k default
  end.

(** [d[k] = v] on an ordered dictionary of integers: an existing key keeps
    its place, a new key goes to the end. *)
Fixpoint dict_set (d : list (Symb * Z)) (k : Symb) (v : Z) : list (Symb * Z) :=
  match d with
  | [] => [(k, v)]
  | (k', v') :: d' =>
      if decide (k' = k) then (k', v) :: d' else (k', v') :: dict_set d' k v
  end.

(** The body of [Counter]'s counting loop:
    [mapping[elem] = mapping.get(elem, 0) + 1]. *)
Definition counter_incr (c : list (Symb * Z)) (elem : Symb) : list (Symb * Z) :=
  dict_set c elem (dict_get c elem 0 + 1).

(** [naive_probs(symbs)], that is [Counter(symbs)]: the items of the
    counter in the order of the dictionary. *)
Definition naive_probs (symbs : list Symb) : list (Symb * Z) :=
  fold_left counter_incr symbs [].

(** How often a symbol occurs in a sequence. *)
Definition occurrences (s : Symb) (symbs : list Symb) : Z :=
  Z.of_nat (length (filter (fun x => x = s) symbs)).

(** The distinct symbols of a sequence in the order of their first
    occurrence. *)
Definition first_seen (symbs : list Symb) : list Symb :=
  fold_left (fun acc x => if decide (x ∈ acc) then acc else acc ++ [x]) symbs [].

End Counter.

(** ** Facts about [bisect_right] *)

Section Bisect.

Context {Symb : Type}.

Lemma bisect_loop_spec (fuel : nat) :
  forall (a : list Z) (x : Z) (lo hi : nat),
    (hi - lo <= fuel)%nat ->
    (lo <= hi <= length a)%nat ->
    le_before a x lo -> lt_at a x hi ->
    exists r, @bisect_loop Symb fuel a x lo hi = Ok r /\
              (lo <= r <= hi)%nat /\ le_before a x r /\ lt_at a x r.
Proof.
  induction fuel as [|fuel IH]; intros a x lo hi Hfuel Hrange Hlo Hhi;
    cbn [bisect_loop].
  - assert (lo = hi) as -> by lia. exists hi. repeat split; auto; lia.
  - destruct (decide (lo < hi)%nat) as [Hlt|Hge].
    + pose proof (Nat.div_mod_eq (lo + hi) 2) as Hdm.
      pose proof (Nat.mod_upper_bound (lo + hi) 2 ltac:(lia)) as Hmod.
      set (mid := ((lo + hi) / 2)%nat) in *. cbv zeta.
      assert (lo <= mid < hi)%nat as Hmid by lia.
      destruct (lookup_lt_is_Some_2 a mid ltac:(lia)) as [am Ham].
      rewrite Ham.
      destruct (decide (x < am)) as [Hx|Hx].
      * destruct (IH a x lo mid) as (r & Hr & Hb & Hp & Hq);
          [lia | lia | exact Hlo | right; eauto |].
        exists r. repeat split; auto; lia.
      * destruct (IH a x (S mid) hi) as (r & Hr & Hb & Hp & Hq);
          [lia | lia | | exact Hhi |].
        { right. exists am. split; [|lia].
          replace (S mid - 1)%nat with mid by lia. exact Ham. }
        exists r. repeat split; auto; lia.
    + assert (lo = hi) as -> by lia. exists hi. repeat split; auto; lia.
Qed.

(** [bisect_right] always returns an insertion point [r] with
    [a[r-1] <= x] (when [r > 0]) and [x < a[r]] (when [r < len(a)]). *)
Lemma bisect_right_spec (a : list Z) (x : Z) :
  exists r, @bisect_right Symb a x = Ok r /\
            (r <= length a)%nat /\ le_before a x r /\ lt_at a x r.
Proof.
  destruct (@bisect_loop_spec (length a) a x 0%nat (length a))
    as (r & Hr & Hb & Hp & Hq); [lia | lia | by left | by left |].
  exists r. repeat split; auto; lia.
Qed.

End Bisect.

(** ** The layout of the table *)

Section Layout.

Context {Symb : Type} `{EqDecision Symb}.

Implicit Types (probs : list (Symb * Z)) (l : list (SymbolStat Symb)).
Implicit Types (d : list (Symb * SymbolStat Symb)) (e : SymbolStat Symb).

Lemma setitem_fresh d (k : Symb) e :
  k ∉ d.*1 -> setitem d k e = d ++ [(k, e)].
Proof.
  induction d as [|[k' e'] d IH]; intros Hk; simpl; [done|].
  rewrite fmap_cons, not_elem_of_cons in Hk. destruct Hk as [Hne Hk].
  destruct (decide (k' = k)) as [->|_]; [done|]. by rewrite IH.
Qed.

Lemma layout_keys probs (t : Z) : (layout t probs).*1 = probs.*1.
Proof.
  revert t. induction probs as [|[s p] probs IH]; intros t; simpl; [done|].
  by rewrite IH.
Qed.

Lemma init_fold probs :
  forall d (t : Z),
    NoDup probs.*1 ->
    (forall k, k ∈ probs.*1 -> k ∉ d.*1) ->
    fold_left init_step probs (mkStatistics d t)
    = mkStatistics (d ++ layout t probs) (t + sum_probs probs).
Proof.
  induction probs as [|[s p] probs IH]; intros d t Hnd Hfresh; simpl.
  - by rewrite app_nil_r, Z.add_0_r.
  - rewrite fmap_cons in Hnd. apply NoDup_cons in Hnd as [Hs Hnd].
    rewrite setitem_fresh by (apply Hfresh; simpl; left).
    rewrite IH.
    + rewrite <- app_assoc. simpl. f_equal. lia.
    + exact Hnd.
    + intros k Hk. rewrite fmap_app, elem_of_app. simpl.
      intros [Hin|Hin].
      * revert Hin. apply Hfresh. simpl. by right.
      * apply list_elem_of_singleton in Hin. by subst.
Qed.

(** For a mapping (distinct keys) the constructor lays the entries out one
    after the other from 1 on, and [total] is 1 plus the sum. *)
Lemma Statistics_init_layout probs :
  NoDup probs.*1 ->
  Statistics_init probs = mkStatistics (layout 1 probs) (1 + sum_probs probs).
Proof.
  intros Hnd. unfold Statistics_init. rewrite init_fold; [done|done|].
  intros k _. simpl. apply not_elem_of_nil.
Qed.

Lemma layout_span probs (t : Z) : span (layout t probs).*2 = sum_probs probs.
Proof.
  revert t. induction probs as [|[s p] probs IH]; intros t; simpl; [done|].
  unfold span, sum_probs in *. simpl. by rewrite IH.
Qed.

Lemma layout_tiles probs (t : Z) :
  positive_probs probs -> tiles_from t (layout t probs).*2.
Proof.
  revert t. induction probs as [|[s p] probs IH]; intros t Hpos; simpl; [done|].
  apply Forall_cons in Hpos as [Hp Hpos]. simpl in Hp. auto.
Qed.

Lemma layout_symb probs (t : Z) (k : Symb) e :
  (k, e) ∈ layout t probs -> symb e = k.
Proof.
  revert t. induction probs as [|[s p] probs IH]; intros t; simpl.
  - intros Hin. by apply elem_of_nil in Hin.
  - intros Hin. apply elem_of_cons in Hin as [Heq|Hin]; [|eauto].
    by inversion Heq.
Qed.

End Layout.

(** ** Entries that tile an interval *)

Section Tiles.

Context {Symb : Type}.

Implicit Types (l : list (SymbolStat Symb)) (e : SymbolStat Symb).

Lemma span_cons e l : span (e :: l) = prob e + span l.
Proof. reflexivity. Qed.

Lemma tiles_span_nonneg l : forall t, tiles_from t l -> 0 <= span l.
Proof.
  induction l as [|e l IH]; intros t Ht; [done|].
  destruct Ht as (_ & Hp & Ht). rewrite span_cons.
  specialize (IH _ Ht). lia.
Qed.

(** Every entry lies inside the tiled interval. *)
Lemma tiles_bounds l :
  forall t (i : nat) e,
    tiles_from t l -> l !! i = Some e ->
    t <= cdf e /\ 0 < prob e /\ cdf e + prob e <= t + span l.
Proof.
  induction l as [|e0 l IH]; intros t i e Ht Hi; [done|].
  destruct Ht as (Hc & Hp & Ht). rewrite span_cons.
  pose proof (tiles_span_nonneg _ _ Ht) as Hnn.
  destruct i as [|i]; simpl in Hi.
  - injection Hi as <-. lia.
  - destruct (IH _ _ _ Ht Hi) as (? & ? & ?). lia.
Qed.

Lemma tiles_first l t e : tiles_from t l -> l !! 0%nat = Some e -> cdf e = t.
Proof. destruct l as [|e0 l]; [done|]. intros (Hc & _) [= <-]. exact Hc. Qed.

(** Neighbours touch. *)
Lemma tiles_adjacent l :
  forall t (i : nat) e e',
    tiles_from t l -> l !! i = Some e -> l !! S i = Some e' ->
    cdf e + prob e = cdf e'.
Proof.
  induction l as [|e0 l IH]; intros t i e e' Ht Hi Hi'; [done|].
  destruct Ht as (Hc & Hp & Ht).
  destruct i as [|i]; simpl in Hi, Hi'.
  - injection Hi as <-. rewrite (tiles_first _ _ _ Ht Hi'). lia.
  - eapply IH; eauto.
Qed.

(** An earlier entry ends before a later one starts. *)
Lemma tiles_ordered l :
  forall t (i j : nat) e e',
    tiles_from t l -> (i < j)%nat -> l !! i = Some e -> l !! j = Some e' ->
    cdf e + prob e <= cdf e'.
Proof.
  induction l as [|e0 l IH]; intros t i j e e' Ht Hij Hi Hj; [done|].
  destruct Ht as (Hc & Hp & Ht).
  destruct j as [|j]; [lia|]. simpl in Hj.
  destruct i as [|i]; simpl in Hi.
  - injection Hi as <-. destruct (tiles_bounds _ _ _ _ Ht Hj) as (? & _). lia.
  - eapply (IH _ i j); eauto. lia.
Qed.

(** The last entry ends where the tiled interval ends. *)
Lemma tiles_last l :
  forall t e, tiles_from t l -> last l = Some e -> cdf e + prob e = t + span l.
Proof.
  induction l as [|e0 l IH]; intros t e Ht Hl; [done|].
  destruct Ht as (Hc & Hp & Ht). rewrite span_cons.
  destruct l as [|e1 l].
  - injection Hl as <-. unfold span. simpl. lia.
  - rewrite last_cons_cons in Hl. rewrite (IH _ _ Ht Hl). lia.
Qed.

(** Two entries whose ranges share a value are the same entry. *)
Lemma tiles_disjoint l t (i j : nat) e e' (v : Z) :
  tiles_from t l -> l !! i = Some e -> l !! j = Some e' ->
  in_range e v -> in_range e' v -> i = j.
Proof.
  intros Ht Hi Hj [? ?] [? ?].
  destruct (Nat.lt_trichotomy i j) as [Hlt|[Heq|Hlt]]; [|done|].
  - pose proof (tiles_ordered _ _ _ _ _ _ Ht Hlt Hi Hj). lia.
  - pose proof (tiles_ordered _ _ _ _ _ _ Ht Hlt Hj Hi). lia.
Qed.

(** Every value of the tiled interval is in the range of some entry. *)
Lemma tiles_cover l :
  forall t (v : Z),
    tiles_from t l -> t <= v < t + span l ->
    exists (i : nat) e, l !! i = Some e /\ in_range e v.
Proof.
  induction l as [|e0 l IH]; intros t v Ht Hv.
  - unfold span in Hv. simpl in Hv. lia.
  - destruct Ht as (Hc & Hp & Ht). rewrite span_cons in Hv.
    destruct (decide (v < t + prob e0)) as [Hlt|Hge].
    + exists 0%nat, e0. split; [done|]. unfold in_range. lia.
    + destruct (IH (t + prob e0) v Ht) as (i & e & Hi & Hr); [lia|].
      exists (S i), e. done.
Qed.

End Tiles.

(** ** [get_by_cdf] *)

Section Lookup.

Context {Symb : Type} `{EqDecision Symb}.

Implicit Types (st : Statistics Symb) (e : SymbolStat Symb).

(** Whatever the table, [get_by_cdf] either raises [ValueError] because the
    insertion point is 0, or returns an entry that starts at or below the
    value and whose successor, if any, starts above it. *)
Lemma get_by_cdf_outcome st (v : Z) :
  (get_by_cdf st v = Raise (ValueError v) /\ lt_at (cdf <$> values st) v 0)
  \/ (exists (i : nat) e,
        get_by_cdf st v = Ok e /\ values st !! i = Some e /\ cdf e <= v /\
        lt_at (cdf <$> values st) v (S i)).
Proof.
  destruct (@bisect_right_spec Symb (cdf <$> values st) v)
    as (r & Hr & Hlen & Hp & Hq).
  unfold get_by_cdf. rewrite Hr. cbn.
  destruct (decide (r = 0%nat)) as [->|Hne]; [by left|right].
  destruct Hp as [?|(y & Hy & Hle)]; [done|].
  rewrite list_lookup_fmap in Hy.
  destruct (values st !! (r - 1)%nat) as [e|] eqn:He; [|done].
  injection Hy as <-.
  exists (r - 1)%nat, e. replace (S (r - 1)) with r by lia. done.
Qed.

Lemma lt_at_cdf st (v : Z) (i : nat) :
  lt_at (cdf <$> values st) v i ->
  i = length (values st) \/ exists e, values st !! i = Some e /\ v < cdf e.
Proof.
  intros [Hi|(y & Hy & Hlt)].
  - left. by rewrite length_fmap in Hi.
  - right. rewrite list_lookup_fmap in Hy.
    destruct (values st !! i) as [e|]; [|done]. injection Hy as <-. eauto.
Qed.

Lemma get_by_cdf_below st (v : Z) :
  tiled st -> v < 1 -> get_by_cdf st v = Raise (ValueError v).
Proof.
  intros [Ht _] Hv.
  destruct (get_by_cdf_outcome st v) as [[Hr _]|(i & e & _ & Hi & Hle & _)];
    [done|].
  destruct (tiles_bounds _ _ _ _ Ht Hi) as (? & _). lia.
Qed.

Lemma get_by_cdf_in_range st (v : Z) :
  tiled st -> 1 <= v < total st ->
  exists (i : nat) e,
    get_by_cdf st v = Ok e /\ values st !! i = Some e /\ in_range e v.
Proof.
  intros [Ht Htot] Hv.
  destruct (get_by_cdf_outcome st v) as [[_ Hq]|(i & e & Hr & Hi & Hle & Hq)].
  - apply lt_at_cdf in Hq as [Hlen|(e & He & Hlt)].
    + symmetry in Hlen. apply length_zero_iff_nil in Hlen.
      rewrite Hlen in Htot. unfold span in Htot. simpl in Htot. lia.
    + rewrite (tiles_first _ _ _ Ht He) in Hlt. lia.
  - exists i, e. split; [done|]. split; [done|]. split; [done|].
    apply lt_at_cdf in Hq as [Hlen|(e' & He' & Hlt)].
    + assert (last (values st) = Some e) as Hlast.
      { rewrite last_lookup, <- Hlen. exact Hi. }
      rewrite (tiles_last _ _ _ Ht Hlast). lia.
    + rewrite (tiles_adjacent _ _ _ _ _ Ht Hi He'). exact Hlt.
Qed.

Lemma get_by_cdf_above st (v : Z) :
  tiled st -> values st <> [] -> total st <= v ->
  exists e, get_by_cdf st v = Ok e /\ last (values st) = Some e.
Proof.
  intros [Ht Htot] Hne Hv.
  destruct (get_by_cdf_outcome st v) as [[_ Hq]|(i & e & Hr & Hi & Hle & Hq)].
  - apply lt_at_cdf in Hq as [Hlen|(e & He & Hlt)].
    + symmetry in Hlen. by apply length_zero_iff_nil in Hlen.
    + destruct (tiles_bounds _ _ _ _ Ht He) as (_ & ? & ?). lia.
  - exists e. split; [done|].
    apply lt_at_cdf in Hq as [Hlen|(e' & He' & Hlt)].
    + rewrite last_lookup, <- Hlen. exact Hi.
    + destruct (tiles_bounds _ _ _ _ Ht He') as (_ & ? & ?). lia.
Qed.

(** The entry found for a value of some entry's range is that entry. *)
Lemma get_by_cdf_owner st (v : Z) (i : nat) e :
  tiled st -> values st !! i = Some e -> in_range e v ->
  get_by_cdf st v = Ok e.
Proof.
  intros Hst Hi Hr.
  assert (1 <= v < total st) as Hv.
  { destruct Hst as [Ht Htot]. destruct Hr.
    destruct (tiles_bounds _ _ _ _ Ht Hi) as (? & ? & ?). lia. }
  destruct (get_by_cdf_in_range st v Hst Hv) as (j & e' & Hg & Hj & Hr').
  destruct Hst as [Ht _].
  assert (i = j) as -> by (eapply tiles_disjoint; eauto).
  congruence.
Qed.

(** The constructor establishes the table invariant. *)
Lemma Statistics_init_tiled (probs : list (Symb * Z)) :
  NoDup probs.*1 -> positive_probs probs -> tiled (Statistics_init probs).
Proof.
  intros Hnd Hpos. rewrite Statistics_init_layout by done.
  split; unfold values; simpl.
  - by apply layout_tiles.
  - by rewrite layout_span.
Qed.

End Lookup.

(** ** One step of [encode] and of [decode] *)

Section Steps.

Context {Symb : Type} `{EqDecision Symb}.

Implicit Types (self : FSECoder Symb) (e : SymbolStat Symb).
Implicit Types (d : list (Symb * SymbolStat Symb)).

Lemma getitem_Ok d (k : Symb) e : getitem d k = Ok e -> (k, e) ∈ d.
Proof.
  induction d as [|[k' e'] d IH]; simpl; [done|].
  destruct (decide (k' = k)) as [->|_].
  - intros [= ->]. by left.
  - intros Hg. right. auto.
Qed.

Lemma getitem_known d (k : Symb) : k ∈ d.*1 -> exists e, getitem d k = Ok e.
Proof.
  induction d as [|[k' e'] d IH]; simpl; intros Hk.
  - by apply elem_of_nil in Hk.
  - destruct (decide (k' = k)) as [->|Hne]; [eauto|].
    apply elem_of_cons in Hk as [Heq|Hk]; [congruence|auto].
Qed.


Lemma elem_of_values (st : Statistics Symb) (k : Symb) e :
  (k, e) ∈ items st -> exists i : nat, values st !! i = Some e.
Proof.
  intros Hin. apply list_elem_of_lookup in Hin as [i Hi].
  exists i. unfold values. by rewrite list_lookup_fmap, Hi.
Qed.

(** What a successful [encode] step computed. *)
Lemma encode_step_Ok self (enc enc' : Z) (s : Symb) :
  encode_step self enc s = Ok enc' ->
  exists e, getitem (items (stats self)) s = Ok e /\ prob e <> 0 /\
            enc' = total (stats self) * (enc / prob e) + enc mod prob e + cdf e.
Proof.
  unfold encode_step, divmod. intros Hstep.
  destruct (getitem (items (stats self)) s) as [e|err]; cbn in Hstep; [|done].
  destruct (decide (prob e = 0)); cbn in Hstep; [done|].
  injection Hstep as <-. eauto.
Qed.

Lemma encode_step_known self (enc : Z) (s : Symb) :
  tiled (stats self) -> s ∈ (items (stats self)).*1 ->
  exists enc', encode_step self enc s = Ok enc'.
Proof.
  intros [Ht _] Hs. destruct (getitem_known _ _ Hs) as [e He].
  destruct (elem_of_values _ _ _ (getitem_Ok _ _ _ He)) as [i Hi].
  destruct (tiles_bounds _ _ _ _ Ht Hi) as (_ & Hp & _).
  unfold encode_step, divmod. rewrite He. cbn.
  destruct (decide (prob e = 0)); [lia|]. cbn. eauto.
Qed.

(** The arithmetic of one step: re-basing by [total] and depositing an
    offset of the entry's range can be undone by [divmod]. *)
Lemma rebase_inverse (tot p c enc : Z) :
  0 < p -> 1 <= c -> c + p <= tot -> 0 <= enc ->
  let enc' := tot * (enc / p) + enc mod p + c in
  0 < enc' /\ enc' / tot = enc / p /\ enc' mod tot = enc mod p + c.
Proof.
  intros Hp Hc Htot Henc enc'.
  pose proof (Z.mod_pos_bound enc p Hp) as Hm.
  pose proof (Z.div_pos enc p Henc Hp) as Hq.
  assert (enc' = tot * (enc / p) + (enc mod p + c)) as Heq by (unfold enc'; lia).
  assert (0 <= enc mod p + c < tot) as Hr by lia.
  split; [unfold enc'; nia|]. split.
  - symmetry. apply (Z.div_unique enc' tot _ (enc mod p + c)); [left; lia|done].
  - symmetry. apply (Z.mod_unique enc' tot (enc / p)); [left; lia|done].
Qed.

(** [decode]'s step undoes [encode]'s step. *)
Lemma decode_step_encode_step self (enc enc' : Z) (s : Symb) :
  tiled (stats self) -> keyed (stats self) -> 0 <= enc ->
  encode_step self enc s = Ok enc' ->
  0 < enc' /\ decode_step self enc' = Ok (enc, s).
Proof.
  intros Hst Hkey Henc Hstep.
  destruct (encode_step_Ok _ _ _ _ Hstep) as (e & He & _ & ->).
  apply getitem_Ok in He. pose proof (Hkey _ _ He) as Hsymb.
  destruct (elem_of_values _ _ _ He) as [i Hi].
  pose proof Hst as [Ht Htot].
  destruct (tiles_bounds _ _ _ _ Ht Hi) as (Hc & Hp & Hend).
  rewrite <- Htot in Hend.
  destruct (rebase_inverse (total (stats self)) (prob e) (cdf e) enc)
    as (Hpos & Hdiv & Hmod); [lia..|].
  split; [exact Hpos|].
  unfold decode_step, divmod.
  destruct (decide (total (stats self) = 0)); [lia|]. cbn.
  rewrite Hdiv, Hmod.
  pose proof (Z.mod_pos_bound enc (prob e) Hp) as Hm.
  rewrite (get_by_cdf_owner _ _ i e Hst Hi) by (unfold in_range; lia). cbn.
  rewrite Hsymb. do 2 f_equal.
  pose proof (Z.div_mod enc (prob e) ltac:(lia)). lia.
Qed.

End Steps.

(** ** The constructor's guarantees *)

Section Constructor.

Context {Symb : Type} `{EqDecision Symb}.

Implicit Types (probs : list (Symb * Z)) (st : Statistics Symb).
Implicit Types (d : list (Symb * SymbolStat Symb)) (e : SymbolStat Symb).

Lemma Statistics_init_keys probs :
  NoDup probs.*1 -> (items (Statistics_init probs)).*1 = probs.*1.
Proof.
  intros Hnd. rewrite Statistics_init_layout by done. simpl. apply layout_keys.
Qed.

Lemma Statistics_init_keyed probs :
  NoDup probs.*1 -> keyed (Statistics_init probs).
Proof.
  intros Hnd k e. rewrite Statistics_init_layout by done. simpl.
  apply layout_symb.
Qed.

Lemma tiled_total_pos st : tiled st -> 1 <= total st.
Proof.
  intros [Ht ->]. pose proof (tiles_span_nonneg _ _ Ht). lia.
Qed.

Lemma tiled_bounded st : tiled st -> bounded_table st.
Proof.
  intros Hst. split; [by apply tiled_total_pos|].
  destruct Hst as [Ht Htot]. apply Forall_lookup. intros i e Hi.
  destruct (tiles_bounds _ _ _ _ Ht Hi) as (? & ? & ?). lia.
Qed.

Lemma setitem_Forall (P : SymbolStat Symb -> Prop) d (k : Symb) e :
  Forall P d.*2 -> P e -> Forall P (setitem d k e).*2.
Proof.
  induction d as [|[k' e'] d IH]; simpl; intros Hd He.
  - by constructor.
  - apply Forall_cons in Hd as [He' Hd].
    destruct (decide (k' = k)); simpl; constructor; auto.
Qed.

Lemma init_step_bounded st (kv : Symb * Z) :
  bounded_table st -> 0 < kv.2 -> bounded_table (init_step st kv).
Proof.
  destruct kv as [s p]. simpl. intros [Htot Hall] Hp.
  split; simpl; [lia|]. unfold values. simpl.
  apply setitem_Forall; simpl; [|lia].
  eapply Forall_impl; [exact Hall|]. simpl. intros e (? & ? & ?). lia.
Qed.

(** Positive frequencies keep every entry inside [[1, total)], whether or
    not keys repeat. *)
Lemma Statistics_init_bounded probs :
  positive_probs probs -> bounded_table (Statistics_init probs).
Proof.
  unfold Statistics_init.
  assert (bounded_table (@mkStatistics Symb [] 1)) as H0.
  { split; simpl; [lia|]. unfold values. simpl. constructor. }
  revert H0. generalize (@mkStatistics Symb [] 1).
  induction probs as [|kv probs IH]; intros st Hst Hpos; simpl; [done|].
  apply Forall_cons in Hpos as [Hp Hpos].
  apply IH; [|done]. by apply init_step_bounded.
Qed.

End Constructor.

(** ** The loops *)

Section Loops.

Context {Symb : Type} `{EqDecision Symb}.

Implicit Types (self : FSECoder Symb) (symbs acc : list Symb).

Lemma decode_loop_stop (fuel : nat) self (enc : Z) acc :
  enc <= 0 -> decode_loop fuel self enc acc = Some (Ok acc).
Proof.
  intros Henc. destruct fuel; simpl; destruct (decide (0 < enc)); done || lia.
Qed.

(** More fuel does not change a result. *)
Lemma decode_loop_mono (fuel : nat) :
  forall (fuel' : nat) self (enc : Z) acc r,
    decode_loop fuel self enc acc = Some r -> (fuel <= fuel')%nat ->
    decode_loop fuel' self enc acc = Some r.
Proof.
  induction fuel as [|fuel IH]; intros fuel' self enc acc r Hrun Hle.
  - simpl in Hrun. destruct (decide (0 < enc)); [done|].
    rewrite decode_loop_stop by lia. done.
  - destruct fuel' as [|fuel']; [lia|]. simpl in *.
    destruct (decide (0 < enc)); [|done].
    destruct (decode_step self enc) as [[enc' s]|err]; [|done].
    apply IH; [done|lia].
Qed.

(** A decode step on a table with positive frequencies either raises the
    [ValueError] of [get_by_cdf] or strictly decreases the accumulator. *)
Lemma decode_step_bounded self (enc : Z) :
  bounded_table (stats self) -> 0 < enc ->
  decode_step self enc = Raise (ValueError (enc mod total (stats self)))
  \/ exists (enc' : Z) (s : Symb),
       decode_step self enc = Ok (enc', s) /\ 0 <= enc' < enc.
Proof.
  intros [Htot Hall] Henc. unfold decode_step, divmod.
  destruct (decide (total (stats self) = 0)); [lia|]. cbn.
  set (m := enc mod total (stats self)).
  destruct (get_by_cdf_outcome (stats self) m)
    as [[Hr _]|(i & e & Hr & Hi & Hle & _)]; rewrite Hr; cbn; [by left|right].
  eexists _, _. split; [done|].
  rewrite Forall_lookup in Hall. destruct (Hall _ _ Hi) as (Hc & Hp & Hend).
  pose proof (Z.div_mod enc (total (stats self)) ltac:(lia)) as Hdm.
  pose proof (Z.div_pos enc (total (stats self)) ltac:(lia) ltac:(lia)) as Hq.
  fold m in Hdm. nia.
Qed.

(** [decode] stops within [enc] iterations. *)
Lemma decode_loop_terminates self (fuel : nat) :
  bounded_table (stats self) ->
  forall (enc : Z) acc,
    enc <= Z.of_nat fuel -> exists r, decode_loop fuel self enc acc = Some r.
Proof.
  intros Hst. induction fuel as [|fuel IH]; intros enc acc Hle.
  - rewrite decode_loop_stop by lia. eauto.
  - simpl. destruct (decide (0 < enc)) as [Hpos|]; [|eauto].
    destruct (decode_step_bounded self enc Hst Hpos)
      as [Hr|(enc' & s & Hr & Hdec)]; rewrite Hr; [eauto|].
    apply IH. lia.
Qed.

(** Decoding peels off the symbols that [encode_loop] pushed, last one
    first, and arrives at the accumulator encoding started from. *)
Lemma decode_loop_encode_loop self symbs :
  tiled (stats self) -> keyed (stats self) ->
  forall (enc enc' : Z),
    0 <= enc -> encode_loop self enc symbs = Ok enc' ->
    0 <= enc' /\
    forall (fuel : nat) acc,
      decode_loop (length symbs + fuel) self enc' acc
      = decode_loop fuel self enc (symbs ++ acc).
Proof.
  intros Hst Hkey. induction symbs as [|s symbs IH]; intros enc enc' Henc Hrun.
  - simpl in Hrun. injection Hrun as <-. done.
  - simpl in Hrun.
    destruct (encode_step self enc s) as [enc1|err] eqn:Hstep; cbn in Hrun; [|done].
    destruct (decode_step_encode_step _ _ _ _ Hst Hkey Henc Hstep) as [Hpos Hback].
    destruct (IH enc1 enc' ltac:(lia) Hrun) as [Hnn Hdec].
    split; [done|]. intros fuel acc.
    replace (length (s :: symbs) + fuel)%nat with (length symbs + S fuel)%nat
      by (simpl; lia).
    rewrite Hdec. simpl.
    destruct (decide (0 < enc1)); [|lia]. by rewrite Hback.
Qed.

(** Encoding symbols of the alphabet succeeds. *)
Lemma encode_loop_known self symbs :
  tiled (stats self) ->
  Forall (fun s => s ∈ (items (stats self)).*1) symbs ->
  forall enc : Z, exists enc', encode_loop self enc symbs = Ok enc'.
Proof.
  intros Hst. induction 1 as [|s symbs Hs _ IH]; intros enc; simpl; [eauto|].
  destruct (encode_step_known self enc s Hst Hs) as [enc1 ->]. cbn. apply IH.
Qed.

End Loops.

(** ** Round trip *)

Section RoundTrip.

Context {Symb : Type} `{EqDecision Symb}.

Implicit Types (probs : list (Symb * Z)) (symbs : list Symb).

Lemma FSECoder_init_tiled probs :
  NoDup probs.*1 -> positive_probs probs ->
  tiled (stats (FSECoder_init probs)) /\ keyed (stats (FSECoder_init probs)).
Proof.
  intros Hnd Hpos. split; simpl.
  - by apply Statistics_init_tiled.
  - by apply Statistics_init_keyed.
Qed.

(** Whatever [encode] returns, [decode] maps back to the input. *)
Lemma decode_encode (self : FSECoder Symb) symbs (enc : Z) :
  tiled (stats self) -> keyed (stats self) ->
  encode self symbs = Ok enc ->
  forall fuel : nat, decode (length symbs + fuel) self enc = Some (Ok symbs).
Proof.
  intros Hst Hkey Henc fuel. unfold decode.
  destruct (decode_loop_encode_loop self symbs Hst Hkey 0 enc ltac:(lia) Henc)
    as [_ Hdec].
  rewrite Hdec, app_nil_r. apply decode_loop_stop. lia.
Qed.

(** A non-empty input gives a positive code. *)
Lemma encode_loop_positive (self : FSECoder Symb) symbs :
  tiled (stats self) -> keyed (stats self) ->
  forall (enc enc' : Z),
    0 <= enc -> symbs <> [] \/ 0 < enc ->
    encode_loop self enc symbs = Ok enc' -> 0 < enc'.
Proof.
  intros Hst Hkey. induction symbs as [|s symbs IH]; intros enc enc' Hnn Hpos Hrun.
  - simpl in Hrun. injection Hrun as <-. by destruct Hpos.
  - simpl in Hrun.
    destruct (encode_step self enc s) as [enc1|err] eqn:Hstep; cbn in Hrun; [|done].
    destruct (decode_step_encode_step _ _ _ _ Hst Hkey Hnn Hstep) as [Hpos1 _].
    apply (IH enc1 enc'); [lia|by right|done].
Qed.

End RoundTrip.

(** ** The claims about [encode] and [decode] *)

Section Claims.

Context {Symb : Type} `{EqDecision Symb}.

Implicit Types (probs : list (Symb * Z)) (symbs : list Symb).

(** C1.  Round trip.  For a table built from a mapping (distinct symbols)
    with positive frequencies and a sequence of symbols of that mapping,
    [encode] returns a code and [decode] of that code returns the sequence,
    as soon as it is given one unit of fuel per symbol.  The empty sequence
    encodes to 0 and 0 decodes to the empty sequence.  The mapping need not
    even be non-empty. *)
Theorem decode_encode_roundtrip probs symbs :
  NoDup probs.*1 -> positive_probs probs ->
  Forall (fun s => s ∈ probs.*1) symbs ->
  encode (FSECoder_init probs) [] = Ok 0 /\
  (forall fuel : nat, decode fuel (FSECoder_init probs) 0 = Some (Ok [])) /\
  exists enc : Z,
    encode (FSECoder_init probs) symbs = Ok enc /\
    forall fuel : nat,
      decode (length symbs + fuel) (FSECoder_init probs) enc = Some (Ok symbs).
Proof.
  intros Hnd Hpos Hsymbs.
  destruct (FSECoder_init_tiled probs Hnd Hpos) as [Hst Hkey].
  split; [done|]. split.
  { intros fuel. apply decode_loop_stop. lia. }
  destruct (encode_loop_known (FSECoder_init probs) symbs Hst) with (enc := 0)
    as [enc Henc].
  { simpl. by rewrite Statistics_init_keys. }
  exists enc. split; [exact Henc|]. by apply decode_encode.
Qed.

(** C9.  For a table built from positive frequencies, [encode] returns 0
    exactly for the empty sequence: a non-empty sequence of symbols of the
    mapping encodes to an integer that is at least 1. *)
Theorem encode_zero_iff_empty probs symbs :
  NoDup probs.*1 -> positive_probs probs ->
  (encode (FSECoder_init probs) symbs = Ok 0 <-> symbs = []) /\
  (symbs <> [] -> Forall (fun s => s ∈ probs.*1) symbs ->
   exists enc : Z, encode (FSECoder_init probs) symbs = Ok enc /\ 1 <= enc).
Proof.
  intros Hnd Hpos.
  destruct (FSECoder_init_tiled probs Hnd Hpos) as [Hst Hkey].
  split.
  - split; [|by intros ->].
    intros Henc. destruct symbs as [|s symbs]; [done|].
    assert (0 < 0); [|lia].
    eapply (encode_loop_positive _ (s :: symbs) Hst Hkey 0 0);
      [lia|by left|exact Henc].
  - intros Hne Hsymbs.
    destruct (encode_loop_known (FSECoder_init probs) symbs Hst) with (enc := 0)
      as [enc Henc].
    { simpl. by rewrite Statistics_init_keys. }
    exists enc. split; [exact Henc|].
    assert (0 < enc); [|lia].
    eapply (encode_loop_positive _ symbs Hst Hkey 0 enc);
      [lia|by left|exact Henc].
Qed.

(** C10.  [decode] of a negative integer returns the empty sequence, for
    every coder and with any amount of fuel: the guard [enc > 0] is false at
    once and nothing checks the sign. *)
Theorem decode_negative (self : FSECoder Symb) (fuel : nat) (enc : Z) :
  enc < 0 -> decode fuel self enc = Some (Ok []).
Proof. intros Hneg. apply decode_loop_stop. lia. Qed.

End Claims.

(** C2.  The mapping [{'a': 1, 'b': 1}]: [total] is 3, ['a'] starts at 1 and
    ['b'] at 2; the sequence [a, b] encodes to 5 and 5 decodes to [a, b]
    (two iterations). *)
Theorem encode_decode_ab :
  total (stats coder_ab) = 3 /\
  values (stats coder_ab) = [mkStat "a"%string 1 1; mkStat "b"%string 1 2] /\
  encode coder_ab ["a"%string; "b"%string] = Ok 5 /\
  forall fuel : nat,
    decode (2 + fuel) coder_ab 5 = Some (Ok ["a"%string; "b"%string]).
Proof.
  split; [reflexivity|]. split; [reflexivity|]. split; [reflexivity|].
  intros fuel.
  apply decode_loop_mono with (fuel := 2%nat); [reflexivity|lia].
Qed.

(** ** The claims about the table *)

Section TableClaims.

Context {Symb : Type} `{EqDecision Symb}.

Implicit Types (probs : list (Symb * Z)) (e : SymbolStat Symb).

Lemma values_nonempty probs :
  NoDup probs.*1 -> probs <> [] -> values (Statistics_init probs) <> [].
Proof.
  intros Hnd Hne Hnil. apply (f_equal length) in Hnil.
  unfold values in Hnil. rewrite length_fmap in Hnil.
  rewrite <- (length_fmap fst), Statistics_init_keys, length_fmap in Hnil by done.
  destruct probs; [done|]. simpl in Hnil. lia.
Qed.

Lemma values_symb_prob probs :
  NoDup probs.*1 ->
  (fun e => (symb e, prob e)) <$> values (Statistics_init probs) = probs.
Proof.
  intros Hnd. rewrite Statistics_init_layout by done. unfold values. simpl.
  generalize 1. induction probs as [|[s p] probs IH]; intros t; simpl; [done|].
  apply NoDup_cons in Hnd as [_ Hnd]. by rewrite IH.
Qed.

(** The values outside every range are those below 1 and those from
    [total] on. *)
Lemma outside_all_iff (st : Statistics Symb) (v : Z) :
  tiled st -> outside_all st v <-> v < 1 \/ total st <= v.
Proof.
  intros Hst. pose proof Hst as [Ht Htot]. split.
  - intros Hout.
    destruct (decide (1 <= v < total st)) as [Hv|Hv]; [|lia].
    rewrite Htot in Hv.
    destruct (tiles_cover _ _ _ Ht Hv) as (i & e & Hi & Hr).
    destruct (Hout e); [|done]. apply list_elem_of_lookup. eauto.
  - intros Hv e He [Hlo Hhi]. apply list_elem_of_lookup in He as [i Hi].
    destruct (tiles_bounds _ _ _ _ Ht Hi) as (? & ? & ?). lia.
Qed.

(** C3.  The table built from a non-empty mapping with positive
    frequencies keeps the pairs of the mapping in order; every [cdf] is at
    least 1; the [cdf]s increase strictly; each entry ends where the next one
    starts; the last entry ends at [total]; [total] is 1 plus the sum of the
    frequencies; and the ranges partition [[1, total)]: every value of the
    interval, and no other, lies in a range, and in only one. *)
Theorem table_partition probs :
  probs <> [] -> NoDup probs.*1 -> positive_probs probs ->
  let st := Statistics_init probs in
  (fun e => (symb e, prob e)) <$> values st = probs /\
  Forall (fun e => 1 <= cdf e) (values st) /\
  (forall (i j : nat) e e',
      (i < j)%nat -> values st !! i = Some e -> values st !! j = Some e' ->
      cdf e < cdf e') /\
  (forall (i : nat) e e',
      values st !! i = Some e -> values st !! S i = Some e' ->
      cdf e + prob e = cdf e') /\
  (exists e, last (values st) = Some e /\ cdf e + prob e = total st) /\
  total st = 1 + sum_probs probs /\
  (forall v : Z,
      1 <= v < total st <-> exists e, e ∈ values st /\ in_range e v) /\
  (forall (v : Z) (i j : nat) e e',
      values st !! i = Some e -> values st !! j = Some e' ->
      in_range e v -> in_range e' v -> i = j).
Proof.
  intros Hne Hnd Hpos st.
  pose proof (Statistics_init_tiled probs Hnd Hpos) as Hst.
  fold st in Hst. pose proof Hst as [Ht Htot].
  split; [by apply values_symb_prob|].
  split.
  { apply Forall_lookup. intros i e Hi.
    by destruct (tiles_bounds _ _ _ _ Ht Hi) as (? & _). }
  split.
  { intros i j e e' Hij Hi Hj.
    pose proof (tiles_ordered _ _ _ _ _ _ Ht Hij Hi Hj).
    destruct (tiles_bounds _ _ _ _ Ht Hi) as (_ & ? & _). lia. }
  split; [intros i e e' Hi Hi'; exact (tiles_adjacent _ _ _ _ _ Ht Hi Hi')|].
  split.
  { destruct (last (values st)) as [e|] eqn:Hlast.
    - exists e. split; [done|]. rewrite Htot. by apply tiles_last.
    - apply last_None in Hlast. by apply values_nonempty in Hlast. }
  split.
  { unfold st. by rewrite Statistics_init_layout. }
  split.
  - intros v. split.
    + intros Hv. rewrite Htot in Hv.
      destruct (tiles_cover _ _ _ Ht Hv) as (i & e & Hi & Hr).
      exists e. split; [|done]. apply list_elem_of_lookup. eauto.
    + intros (e & He & Hr).
      destruct (decide (1 <= v < total st)) as [|Hv]; [done|].
      destruct (proj2 (outside_all_iff st v Hst) ltac:(lia) e He Hr).
  - intros v i j e e' Hi Hj. exact (tiles_disjoint _ _ _ _ _ _ _ Ht Hi Hj).
Qed.

(** C4, as the code has it.  On the table of a non-empty mapping with
    positive frequencies, [get_by_cdf] returns the last entry whose [cdf] is
    at most the value.  So it returns the one entry whose range holds the
    value when there is one; it raises [ValueError] exactly for the values
    below 1 (zero included); and from [total] on it does not fail but
    returns the last entry, although those values lie in no range. *)
Theorem get_by_cdf_contract probs (v : Z) :
  probs <> [] -> NoDup probs.*1 -> positive_probs probs ->
  let st := Statistics_init probs in
  (forall (i : nat) e,
      values st !! i = Some e -> in_range e v -> get_by_cdf st v = Ok e) /\
  (v < 1 -> get_by_cdf st v = Raise (ValueError v)) /\
  (is_invalid_code (get_by_cdf st v) <-> v < 1) /\
  (total st <= v ->
   exists e, last (values st) = Some e /\ get_by_cdf st v = Ok e) /\
  (outside_all st v <-> v < 1 \/ total st <= v).
Proof.
  intros Hne Hnd Hpos st.
  pose proof (Statistics_init_tiled probs Hnd Hpos) as Hst. fold st in Hst.
  pose proof (values_nonempty probs Hnd Hne) as Hvals. fold st in Hvals.
  split; [intros i e; by apply get_by_cdf_owner|].
  split; [by apply get_by_cdf_below|].
  split.
  - split; [|intros Hv; exists v; by apply get_by_cdf_below].
    intros [w Hw]. destruct (decide (v < 1)) as [|Hge]; [done|].
    destruct (decide (v < total st)) as [Hlt|Hge'].
    + destruct (get_by_cdf_in_range st v Hst ltac:(lia)) as (i & e & Hg & _).
      congruence.
    + destruct (get_by_cdf_above st v Hst Hvals ltac:(lia)) as (e & Hg & _).
      congruence.
  - split; [|by apply outside_all_iff].
    intros Hv. destruct (get_by_cdf_above st v Hst Hvals Hv) as (e & Hg & Hl).
    eauto.
Qed.

(** C5, as the code has it.  The constructor validates nothing and cannot
    fail: for every mapping, empty or with frequencies that are not positive
    included, it returns a table that keeps the pairs of the mapping in order
    with their frequencies unchanged and whose [total] is 1 plus their
    sum. *)
Theorem Statistics_init_total probs :
  NoDup probs.*1 ->
  (fun e => (symb e, prob e)) <$> values (Statistics_init probs) = probs /\
  keys (Statistics_init probs) = probs.*1 /\
  total (Statistics_init probs) = 1 + sum_probs probs.
Proof.
  intros Hnd. split; [by apply values_symb_prob|].
  split; [by apply Statistics_init_keys|].
  by rewrite Statistics_init_layout.
Qed.

End TableClaims.

(** ** The claims about failures and termination *)

Section FailureClaims.

Context {Symb : Type} `{EqDecision Symb}.

Implicit Types (probs : list (Symb * Z)) (symbs : list Symb).
Implicit Types (self : FSECoder Symb).





(** On a tiled table a step of [decode] raises exactly when the remainder
    is 0, and otherwise strictly decreases the accumulator. *)
Lemma decode_step_tiled self (enc : Z) :
  tiled (stats self) -> 0 < enc ->
  (enc mod total (stats self) = 0 /\
   decode_step self enc = Raise (ValueError 0))
  \/ (enc mod total (stats self) <> 0 /\
      exists (enc' : Z) (s : Symb),
        decode_step self enc = Ok (enc', s) /\ 0 <= enc' < enc).
Proof.
  intros Hst Henc. pose proof (tiled_total_pos _ Hst) as Htot.
  pose proof (Z.mod_pos_bound enc (total (stats self)) ltac:(lia)) as Hm.
  destruct (decide (enc mod total (stats self) = 0)) as [Hz|Hnz].
  - left. split; [done|]. unfold decode_step, divmod.
    destruct (decide (total (stats self) = 0)); [lia|]. cbn.
    rewrite Hz, get_by_cdf_below by (done || lia). done.
  - right. split; [done|].
    destruct (decode_step_bounded self enc (tiled_bounded _ Hst) Henc)
      as [Hr|Hok]; [|done].
    exfalso. unfold decode_step, divmod in Hr.
    destruct (decide (total (stats self) = 0)); [lia|]. cbn in Hr.
    destruct (get_by_cdf_in_range (stats self) (enc mod total (stats self)) Hst
                ltac:(lia)) as (i & e & Hg & _).
    rewrite Hg in Hr. done.
Qed.

Lemma decode_loop_outcome self (fuel : nat) :
  tiled (stats self) ->
  forall (enc : Z) (acc : list Symb) r,
    decode_loop fuel self enc acc = Some r ->
    (exists l, r = Ok l) \/ r = Raise (ValueError 0).
Proof.
  intros Hst. induction fuel as [|fuel IH]; intros enc acc r Hrun; simpl in Hrun.
  - destruct (decide (0 < enc)); [done|]. injection Hrun as <-. eauto.
  - destruct (decide (0 < enc)) as [Hpos|]; [|injection Hrun as <-; eauto].
    destruct (decode_step_tiled self enc Hst Hpos)
      as [[_ Hr]|(_ & enc' & s & Hr & _)]; rewrite Hr in Hrun.
    + injection Hrun as <-. by right.
    + eauto.
Qed.

(** C8.  For a table built from positive frequencies every iteration of
    [decode] that finds an entry leaves an accumulator that is smaller and
    not negative, so the loop stops within [enc] iterations: with that much
    fuel or more the run has a result, the same for every amount. *)
Theorem decode_terminates probs :
  positive_probs probs ->
  (forall (enc enc' : Z) (s : Symb),
      0 < enc -> decode_step (FSECoder_init probs) enc = Ok (enc', s) ->
      0 <= enc' < enc) /\
  (forall enc : Z,
      exists r, forall fuel : nat,
        decode (Z.to_nat enc + fuel) (FSECoder_init probs) enc = Some r).
Proof.
  intros Hpos.
  assert (bounded_table (stats (FSECoder_init probs))) as Hst
    by (by apply Statistics_init_bounded).
  split.
  - intros enc enc' s Henc Hstep.
    destruct (decode_step_bounded _ enc Hst Henc) as [Hr|(e1 & s1 & Hr & Hdec)];
      rewrite Hr in Hstep; [done|].
    injection Hstep as <- <-. done.
  - intros enc.
    destruct (decode_loop_terminates (FSECoder_init probs) (Z.to_nat enc) Hst
                enc []) as [r Hr]; [lia|].
    exists r. intros fuel.
    apply decode_loop_mono with (fuel := Z.to_nat enc); [done|lia].
Qed.

(** C7, as the code has it.  On the table of a non-empty mapping with
    positive frequencies, [decode] of an integer that is not negative runs
    to completion, and its result is a sequence or the [ValueError] of
    [get_by_cdf] for the remainder 0.  An iteration raises exactly when the
    accumulator is a multiple of [total]; so [decode] raises for every
    positive multiple of [total], and never for an integer that [encode]
    returned on this table. *)
Theorem decode_completes probs :
  probs <> [] -> NoDup probs.*1 -> positive_probs probs ->
  let self := FSECoder_init probs in
  (forall enc : Z,
      0 <= enc ->
      exists r,
        (forall fuel : nat, decode (Z.to_nat enc + fuel) self enc = Some r) /\
        ((exists l, r = Ok l) \/ r = Raise (ValueError 0))) /\
  (forall enc : Z,
      0 < enc ->
      (decode_step self enc = Raise (ValueError 0)
       <-> enc mod total (stats self) = 0)) /\
  (forall (k : Z) (fuel : nat),
      0 < k ->
      decode (S fuel) self (k * total (stats self)) = Some (Raise (ValueError 0))) /\
  (forall symbs (enc : Z),
      encode self symbs = Ok enc ->
      forall fuel : nat, decode (length symbs + fuel) self enc = Some (Ok symbs)).
Proof.
  intros Hne Hnd Hpos self.
  destruct (FSECoder_init_tiled probs Hnd Hpos) as [Hst Hkey].
  fold self in Hst, Hkey.
  pose proof (tiled_total_pos _ Hst) as Htot.
  split; [|split; [|split]].
  - intros enc Henc.
    destruct (decode_loop_terminates self (Z.to_nat enc) (tiled_bounded _ Hst)
                enc []) as [r Hr]; [lia|].
    exists r. split.
    + intros fuel. apply decode_loop_mono with (fuel := Z.to_nat enc); [done|lia].
    + by apply (decode_loop_outcome self _ Hst _ _ _ Hr).
  - intros enc Henc.
    destruct (decode_step_tiled self enc Hst Henc)
      as [[Hz Hr]|(Hnz & enc' & s & Hr & _)]; rewrite Hr; split; done.
  - intros k fuel Hk. unfold decode. cbn [decode_loop].
    destruct (decide (0 < k * total (stats self))) as [Hpos'|]; [|nia].
    destruct (decode_step_tiled self _ Hst Hpos')
      as [[_ Hr]|(Hnz & _)]; [by rewrite Hr|].
    by rewrite Z.mod_mul in Hnz by lia.
  - intros symbs enc Henc. by apply decode_encode.
Qed.

End FailureClaims.

(** ** Concrete runs *)

(** C1 at the mapping [{'a': 1, 'b': 1}] and the sequence [b, a, b]. *)
Lemma decode_encode_roundtrip_ab :
  exists enc : Z,
    encode coder_ab ["b"; "a"; "b"]%string = Ok enc /\
    decode 3 coder_ab enc = Some (Ok ["b"; "a"; "b"]%string).
Proof.
  destruct (decode_encode_roundtrip probs_ab ["b"; "a"; "b"]%string)
    as (_ & _ & enc & Henc & Hdec).
  - by apply (bool_decide_unpack _).
  - by repeat constructor.
  - by apply (bool_decide_unpack _).
  - exists enc. split; [exact Henc|]. exact (Hdec 0%nat).
Defined.

(** C9 at the same mapping. *)
Lemma encode_zero_iff_empty_ab :
  encode coder_ab ["b"%string] = Ok 0 <-> ["b"%string] = [].
Proof.
  apply (encode_zero_iff_empty probs_ab ["b"%string]).
  - by apply (bool_decide_unpack _).
  - by repeat constructor.
Defined.

(** C10 at [-7], with no fuel at all. *)
Lemma decode_negative_ab : decode 0 coder_ab (-7) = Some (Ok []).
Proof. apply (decode_negative coder_ab 0 (-7)). lia. Defined.

(** C3 at the mapping [{'a': 1, 'b': 1}]. *)
Lemma table_partition_ab :
  Forall (fun e => 1 <= cdf e) (values (Statistics_init probs_ab)) /\
  total (Statistics_init probs_ab) = 1 + sum_probs probs_ab.
Proof.
  destruct (table_partition probs_ab) as (_ & Hcdf & _ & _ & _ & Htot & _).
  - done.
  - by apply (bool_decide_unpack _).
  - by repeat constructor.
  - split; [exact Hcdf|exact Htot].
Defined.

(** C4: at [total] (here 3) [get_by_cdf] returns the entry of ['b'] although
    3 lies in no range, and 0 lies in no range although it is neither
    negative nor at least [total]. *)
Lemma get_by_cdf_beyond_total_ab :
  ~ (is_invalid_code (get_by_cdf (stats coder_ab) 3)
     <-> outside_all (stats coder_ab) 3)
  /\ get_by_cdf (stats coder_ab) 3 = Ok (mkStat "b"%string 1 2)
  /\ outside_all (stats coder_ab) 0
  /\ ~ (0 < 0 \/ total (stats coder_ab) <= 0).
Proof.
  assert (forall v : Z, v < 1 \/ 3 <= v -> outside_all (stats coder_ab) v) as Hout.
  { intros v Hv e He [Hlo Hhi].
    apply elem_of_cons in He as [->|He]; [simpl in *; lia|].
    apply list_elem_of_singleton in He as ->. simpl in *. lia. }
  split; [|split; [reflexivity|split]].
  - intros [_ Hfail]. destruct (Hfail (Hout 3 ltac:(lia))) as [v Hv].
    vm_compute in Hv. discriminate Hv.
  - apply Hout. lia.
  - change (total (stats coder_ab)) with 3. lia.
Qed.

(** C4, as the code has it, at the same table. *)
Lemma get_by_cdf_contract_ab :
  (is_invalid_code (get_by_cdf (Statistics_init probs_ab) 0) <-> 0 < 1) /\
  (outside_all (Statistics_init probs_ab) 0
   <-> 0 < 1 \/ total (Statistics_init probs_ab) <= 0).
Proof.
  destruct (get_by_cdf_contract probs_ab 0) as (_ & _ & Hfail & _ & Hout).
  - done.
  - by apply (bool_decide_unpack _).
  - by repeat constructor.
  - split; [exact Hfail|exact Hout].
Defined.

(** C5: the constructor returns a table for the empty mapping, for a zero
    frequency and for a negative one. *)
Lemma Statistics_init_accepts_invalid :
  Statistics_init (@nil (string * Z)) = mkStatistics [] 1 /\
  Statistics_init probs_zero
  = mkStatistics [("a"%string, mkStat "a"%string 0 1)] 1 /\
  Statistics_init probs_neg
  = mkStatistics [("a"%string, mkStat "a"%string 3 1);
                  ("b"%string, mkStat "b"%string (-2) 4)] 2.
Proof. repeat split. Qed.

(** C5, as the code has it, at the mapping with a negative frequency. *)
Lemma Statistics_init_total_neg :
  total (Statistics_init probs_neg) = 1 + sum_probs probs_neg.
Proof.
  apply (Statistics_init_total probs_neg).
  by apply (bool_decide_unpack _).
Defined.



(** C7: [decode(3)] on the table of [{'a': 1, 'b': 1}] (3 is [total])
    raises [ValueError] in its first iteration. *)
Lemma decode_total_raises_ab :
  decode 1 coder_ab 3 = Some (Raise (ValueError 0)).
Proof. reflexivity. Qed.

(** C7, as the code has it, at the same table. *)
Lemma decode_completes_ab :
  exists r, (forall fuel : nat, decode (Z.to_nat 6 + fuel) coder_ab 6 = Some r) /\
            ((exists l, r = Ok l) \/ r = Raise (ValueError 0)).
Proof.
  destruct (decode_completes probs_ab) as (Hrun & _).
  - done.
  - by apply (bool_decide_unpack _).
  - by repeat constructor.
  - apply (Hrun 6). lia.
Defined.

(** C8 at the same mapping and the integer 100. *)
Lemma decode_terminates_ab :
  exists r, forall fuel : nat,
    decode (Z.to_nat 100 + fuel) (FSECoder_init probs_ab) 100 = Some r.
Proof.
  destruct (decode_terminates probs_ab) as (_ & Hrun).
  - by repeat constructor.
  - apply (Hrun 100).
Defined.

(** Why C8 asks for positive frequencies: on the table of
    [{'a': 3, 'b': -2}] an iteration maps the accumulator 3 to itself, so no
    amount of fuel ends the loop. *)
Lemma decode_diverges_neg (fuel : nat) :
  decode fuel (FSECoder_init probs_neg) 3 = None.
Proof.
  unfold decode. generalize (@nil string).
  induction fuel as [|fuel IH]; intros acc; [reflexivity|].
  change (decode_loop (S fuel) (FSECoder_init probs_neg) 3 acc)
    with (decode_loop fuel (FSECoder_init probs_neg) 3 ("a"%string :: acc)).
  apply IH.
Qed.

(** ** [naive_probs]: what the counter holds *)

Section CounterFacts.

Context {Symb : Type} `{EqDecision Symb}.

Implicit Types (c : list (Symb * Z)) (symbs : list Symb) (s x : Symb).

Lemma dict_set_keys c x (v : Z) :
  (dict_set c x v).*1 = if decide (x ∈ c.*1) then c.*1 else c.*1 ++ [x].
Proof.
  induction c as [|[k n] c IH]; cbn [dict_set].
  - rewrite decide_False by apply not_elem_of_nil. done.
  - destruct (decide (k = x)) as [->|Hne]; rewrite !fmap_cons; cbn [fst].
    + rewrite decide_True by (by left). done.
    + rewrite IH. destruct (decide (x ∈ c.*1)) as [Hin|Hout].
      * rewrite decide_True by (by right). done.
      * rewrite decide_False; [done|].
        intros Hin. apply elem_of_cons in Hin as [->|Hin]; done.
Qed.

Lemma dict_set_NoDup c x (v : Z) : NoDup c.*1 -> NoDup (dict_set c x v).*1.
Proof.
  intros Hnd. rewrite dict_set_keys.
  destruct (decide (x ∈ c.*1)) as [_|Hout]; [done|].
  apply NoDup_app. split; [done|]. split; [|apply NoDup_singleton].
  intros y Hy Hy'. apply list_elem_of_singleton in Hy'. by subst.
Qed.

Lemma dict_get_set c x s (v : Z) :
  dict_get (dict_set c x v) s 0 = if decide (x = s) then v else dict_get c s 0.
Proof.
  induction c as [|[k n] c IH]; simpl.
  - destruct (decide (x = s)); done.
  - destruct (decide (k = x)) as [->|Hne]; simpl.
    + destruct (decide (x = s)); done.
    + destruct (decide (k = s)) as [->|Hks].
      * destruct (decide (x = s)); [congruence|done].
      * exact IH.
Qed.

Lemma dict_get_nonneg c s :
  Forall (fun kv => 0 < kv.2) c -> 0 <= dict_get c s 0.
Proof.
  induction 1 as [|[k n] c Hn _ IH]; simpl; [done|].
  destruct (decide (k = s)); simpl in *; lia.
Qed.

Lemma dict_set_positive c x (v : Z) :
  Forall (fun kv => 0 < kv.2) c -> 0 < v ->
  Forall (fun kv => 0 < kv.2) (dict_set c x v).
Proof.
  intros Hc Hv. induction Hc as [|[k n] c Hn Hc IH]; simpl.
  - by repeat constructor.
  - destruct (decide (k = x)); constructor; done.
Qed.

Lemma counter_incr_sum c x : sum_probs (counter_incr c x) = sum_probs c + 1.
Proof.
  unfold counter_incr. induction c as [|[k n] c IH]; simpl; [done|].
  destruct (decide (k = x)); simpl.
  - unfold sum_probs. simpl. lia.
  - unfold sum_probs in *. simpl. rewrite IH. lia.
Qed.

Lemma elem_of_dict c s (n : Z) :
  NoDup c.*1 -> (s, n) ∈ c <-> s ∈ c.*1 /\ dict_get c s 0 = n.
Proof.
  induction c as [|[k m] c IH]; simpl; intros Hnd.
  - split; [intros Hin|intros [Hin _]]; by apply elem_of_nil in Hin.
  - apply NoDup_cons in Hnd as [Hk Hnd]. specialize (IH Hnd).
    rewrite !elem_of_cons. destruct (decide (k = s)) as [->|Hne].
    + split.
      * intros [[= ->]|Hin]; [by split; [left|]|].
        destruct Hk. apply list_elem_of_fmap. by exists (s, n).
      * intros [_ ->]. by left.
    + rewrite IH. split.
      * intros [[= -> ->]|[Hin Hget]]; [done|]. split; [by right|done].
      * intros [[->|Hin] Hget]; [done|]. by right.
Qed.

(** The invariant of the counting loop. *)
Lemma counter_fold symbs :
  forall c,
    NoDup c.*1 -> Forall (fun kv => 0 < kv.2) c ->
    let c' := fold_left counter_incr symbs c in
    NoDup c'.*1 /\ Forall (fun kv => 0 < kv.2) c' /\
    sum_probs c' = sum_probs c + Z.of_nat (length symbs) /\
    (forall s, s ∈ c'.*1 <-> s ∈ c.*1 \/ s ∈ symbs) /\
    (forall s, dict_get c' s 0 = dict_get c s 0 + occurrences s symbs).
Proof.
  induction symbs as [|x symbs IH]; intros c Hnd Hpos; simpl.
  - split; [done|]. split; [done|]. split; [lia|]. split.
    + intros s. rewrite elem_of_nil. tauto.
    + intros s. unfold occurrences. simpl. lia.
  - destruct (IH (counter_incr c x)) as (Hnd' & Hpos' & Hsum & Hkeys & Hget).
    { by apply dict_set_NoDup. }
    { apply dict_set_positive; [done|].
      pose proof (dict_get_nonneg c x Hpos). lia. }
    split; [done|]. split; [done|]. split.
    { rewrite Hsum, counter_incr_sum. lia. }
    split.
    + intros s. rewrite Hkeys. unfold counter_incr. rewrite dict_set_keys.
      rewrite elem_of_cons.
      destruct (decide (x ∈ c.*1)) as [Hin|Hout].
      * split; [tauto|]. intros [?|[->|?]]; tauto.
      * rewrite elem_of_app, list_elem_of_singleton. tauto.
    + intros s. rewrite Hget. unfold counter_incr. rewrite dict_get_set.
      unfold occurrences. rewrite filter_cons.
      destruct (decide (x = s)) as [->|Hne]; simpl; lia.
Qed.

Lemma counter_fold_keys symbs :
  forall c,
    (fold_left counter_incr symbs c).*1
    = fold_left (fun acc y => if decide (y ∈ acc) then acc else acc ++ [y])
                symbs c.*1.
Proof.
  induction symbs as [|x symbs IH]; intros c; simpl; [done|].
  rewrite IH. unfold counter_incr. by rewrite dict_set_keys.
Qed.

Lemma naive_probs_invariant symbs :
  NoDup (naive_probs symbs).*1 /\
  Forall (fun kv => 0 < kv.2) (naive_probs symbs) /\
  sum_probs (naive_probs symbs) = Z.of_nat (length symbs) /\
  (forall s, s ∈ (naive_probs symbs).*1 <-> s ∈ symbs) /\
  (forall s, dict_get (naive_probs symbs) s 0 = occurrences s symbs).
Proof.
  unfold naive_probs.
  destruct (counter_fold symbs []) as (Hnd & Hpos & Hsum & Hkeys & Hget).
  { apply NoDup_nil_2. }
  { constructor. }
  split; [done|]. split; [done|]. split; [exact Hsum|]. split.
  - intros s. rewrite (Hkeys s). simpl. rewrite elem_of_nil. tauto.
  - intros s. rewrite (Hget s). simpl. lia.
Qed.

(** X1.  [naive_probs] returns a mapping that the coder can use: its
    symbols are distinct, they are exactly the symbols of the input, they
    come in the order of their first occurrence, and every frequency is
    positive. *)
Theorem naive_probs_mapping symbs :
  NoDup (naive_probs symbs).*1 /\
  positive_probs (naive_probs symbs) /\
  (forall s, s ∈ (naive_probs symbs).*1 <-> s ∈ symbs) /\
  (naive_probs symbs).*1 = first_seen symbs.
Proof.
  destruct (naive_probs_invariant symbs) as (Hnd & Hpos & _ & Hkeys & _).
  split; [done|]. split; [done|]. split; [done|].
  unfold naive_probs, first_seen. by rewrite counter_fold_keys.
Qed.

(** X2.  The frequency that [naive_probs] gives a symbol is the number of
    its occurrences in the input, and only symbols of the input get one. *)
Theorem naive_probs_counts symbs s (n : Z) :
  (s, n) ∈ naive_probs symbs <-> s ∈ symbs /\ n = occurrences s symbs.
Proof.
  destruct (naive_probs_invariant symbs) as (Hnd & _ & _ & Hkeys & Hget).
  rewrite (elem_of_dict _ s n Hnd), Hkeys, Hget. split; intros [? ?]; done.
Qed.

(** X3.  The table built from [naive_probs] of a sequence has [total] equal
    to 1 plus the length of the sequence. *)
Theorem naive_probs_total symbs :
  total (Statistics_init (naive_probs symbs)) = 1 + Z.of_nat (length symbs).
Proof.
  destruct (naive_probs_invariant symbs) as (Hnd & _ & Hsum & _).
  rewrite Statistics_init_layout by done. simpl. by rewrite Hsum.
Qed.

(** X4.  The self-test of the module cannot fail: for every sequence, the
    coder built from [naive_probs] of that very sequence encodes it, and
    decoding the code gives the sequence back. *)
Theorem self_test_roundtrip symbs :
  exists enc : Z,
    encode (FSECoder_init (naive_probs symbs)) symbs = Ok enc /\
    forall fuel : nat,
      decode (length symbs + fuel) (FSECoder_init (naive_probs symbs)) enc
      = Some (Ok symbs).
Proof.
  destruct (naive_probs_invariant symbs) as (Hnd & Hpos & _ & Hkeys & _).
  destruct (FSECoder_init_tiled (naive_probs symbs) Hnd Hpos) as [Hst Hkey].
  destruct (encode_loop_known (FSECoder_init (naive_probs symbs)) symbs Hst)
    with (enc := 0) as [enc Henc].
  { simpl. rewrite Statistics_init_keys by done.
    apply Forall_forall. intros s Hs. by apply Hkeys. }
  exists enc. split; [exact Henc|]. by apply decode_encode.
Qed.

End CounterFacts.

(** ** Lookup by symbol, and [encode] after [decode] *)

Section CoderFacts.

Context {Symb : Type} `{EqDecision Symb}.

Implicit Types (probs : list (Symb * Z)) (symbs : list Symb).
Implicit Types (self : FSECoder Symb) (e : SymbolStat Symb).
Implicit Types (d : list (Symb * SymbolStat Symb)).

Lemma getitem_NoDup d (k : Symb) e :
  NoDup d.*1 -> (k, e) ∈ d -> getitem d k = Ok e.
Proof.
  induction d as [|[k' e'] d IH]; intros Hnd Hin.
  - by apply elem_of_nil in Hin.
  - rewrite fmap_cons in Hnd. apply NoDup_cons in Hnd as [Hk Hnd].
    cbn [getitem]. apply elem_of_cons in Hin as [[= -> ->]|Hin].
    + by rewrite decide_True.
    + rewrite decide_False; [by apply IH|].
      intros ->. apply Hk. apply list_elem_of_fmap. by exists (k, e).
Qed.

Lemma sum_probs_cons (kv : Symb * Z) probs :
  sum_probs (kv :: probs) = kv.2 + sum_probs probs.
Proof. reflexivity. Qed.

Lemma getitem_layout probs :
  forall (t : Z) (i : nat) (s : Symb) (p : Z),
    NoDup probs.*1 -> probs !! i = Some (s, p) ->
    getitem (layout t probs) s = Ok (mkStat s p (t + sum_probs (take i probs))).
Proof.
  induction probs as [|[s0 p0] probs IH]; intros t i s p Hnd Hi; [done|].
  rewrite fmap_cons in Hnd. apply NoDup_cons in Hnd as [Hs0 Hnd].
  cbn [layout getitem]. destruct i as [|i]; simpl in Hi.
  - injection Hi as -> ->. rewrite decide_True by done.
    simpl. unfold sum_probs. simpl. by rewrite Z.add_0_r.
  - rewrite decide_False.
    + rewrite (IH (t + p0) i s p Hnd Hi). simpl take.
      rewrite sum_probs_cons. simpl. do 2 f_equal. lia.
    + intros ->. apply Hs0. apply list_elem_of_fmap. exists (s, p).
      split; [done|]. by apply list_elem_of_lookup_2 in Hi.
Qed.

(** How [encode] runs over a concatenation. *)
Lemma encode_loop_app self symbs symbs' (enc : Z) :
  encode_loop self enc (symbs ++ symbs')
  = match encode_loop self enc symbs with
    | Ok enc1 => encode_loop self enc1 symbs'
    | Raise err => Raise err
    end.
Proof.
  revert enc. induction symbs as [|s symbs IH]; intros enc; simpl; [done|].
  destruct (encode_step self enc s) as [enc1|err]; cbn; [apply IH|done].
Qed.

(** [encode]'s step undoes [decode]'s step. *)
Lemma encode_step_decode_step self (enc enc' : Z) (s : Symb) :
  tiled (stats self) -> keyed (stats self) -> NoDup (keys (stats self)) ->
  0 < enc -> decode_step self enc = Ok (enc', s) ->
  0 <= enc' /\ encode_step self enc' s = Ok enc.
Proof.
  intros Hst Hkey Hnd Henc Hstep.
  pose proof (tiled_total_pos _ Hst) as Htot.
  pose proof (Z.mod_pos_bound enc (total (stats self)) ltac:(lia)) as Hm.
  unfold decode_step, divmod in Hstep.
  destruct (decide (total (stats self) = 0)); [lia|]. cbn in Hstep.
  destruct (decide (enc mod total (stats self) = 0)) as [Hz|Hnz].
  { rewrite Hz, get_by_cdf_below in Hstep by (done || lia). done. }
  destruct (get_by_cdf_in_range (stats self) (enc mod total (stats self)) Hst
              ltac:(lia)) as (i & e & Hg & Hi & [Hlo Hhi]).
  rewrite Hg in Hstep. cbn in Hstep. injection Hstep as <- <-.
  pose proof Hst as [Ht _].
  destruct (tiles_bounds _ _ _ _ Ht Hi) as (Hc & Hp & _).
  pose proof (Z.div_pos enc (total (stats self)) ltac:(lia) ltac:(lia)) as Hq.
  split; [nia|].
  assert ((symb e, e) ∈ items (stats self)) as Hin.
  { unfold values in Hi. rewrite list_lookup_fmap in Hi.
    destruct (items (stats self) !! i) as [[k e0]|] eqn:Hki; [|done].
    simpl in Hi. injection Hi as ->.
    apply list_elem_of_lookup_2 in Hki.
    by rewrite (Hkey _ _ Hki). }
  unfold encode_step, divmod. rewrite (getitem_NoDup _ _ _ Hnd Hin). cbn.
  destruct (decide (prob e = 0)); [lia|]. cbn. f_equal.
  set (m := enc mod total (stats self)) in *.
  set (q := enc / total (stats self)) in *.
  assert (0 <= m - cdf e < prob e) as Hr by lia.
  rewrite <- (Z.div_unique (prob e * q + m - cdf e) (prob e) q (m - cdf e))
    by lia.
  rewrite <- (Z.mod_unique (prob e * q + m - cdf e) (prob e) q (m - cdf e))
    by lia.
  pose proof (Z.div_mod enc (total (stats self)) ltac:(lia)) as Hdm.
  fold m q in Hdm. lia.
Qed.

(** Whatever [decode] returns for an integer that is not negative,
    [encode] maps back to that integer. *)
Lemma encode_loop_decode_loop self (fuel : nat) :
  tiled (stats self) -> keyed (stats self) -> NoDup (keys (stats self)) ->
  forall (enc : Z) (acc l : list Symb),
    0 <= enc -> decode_loop fuel self enc acc = Some (Ok l) ->
    exists pre, l = pre ++ acc /\ encode_loop self 0 pre = Ok enc.
Proof.
  intros Hst Hkey Hnd.
  induction fuel as [|fuel IH]; intros enc acc l Henc Hrun; simpl in Hrun.
  - destruct (decide (0 < enc)); [done|]. injection Hrun as <-.
    exists []. split; [done|]. simpl. f_equal. lia.
  - destruct (decide (0 < enc)) as [Hpos|].
    + destruct (decode_step self enc) as [[enc' s]|err] eqn:Hstep; [|done].
      destruct (encode_step_decode_step _ _ _ _ Hst Hkey Hnd Hpos Hstep)
        as [Hnn Hback].
      destruct (IH enc' (s :: acc) l Hnn Hrun) as (pre & -> & Hpre).
      exists (pre ++ [s]). split; [by rewrite <- app_assoc|].
      rewrite encode_loop_app, Hpre. simpl. by rewrite Hback.
    + injection Hrun as <-. exists []. split; [done|]. simpl. f_equal. lia.
Qed.

(** X5.  Lookup by symbol after construction: the entry stored for the
    [i]-th pair [(s, p)] of a mapping carries the symbol [s], the frequency
    [p] and, as [cdf], 1 plus the sum of the frequencies of the pairs before
    it.  No sign condition on the frequencies is needed. *)
Theorem Statistics_getitem probs (i : nat) (s : Symb) (p : Z) :
  NoDup probs.*1 -> probs !! i = Some (s, p) ->
  getitem (items (Statistics_init probs)) s
  = Ok (mkStat s p (1 + sum_probs (take i probs))).
Proof.
  intros Hnd Hi. rewrite Statistics_init_layout by done. simpl.
  by apply getitem_layout.
Qed.

(** X7.  [encode] undoes [decode]: on the table of a mapping with positive
    frequencies, when [decode] of an integer that is not negative returns a
    sequence, [encode] of that sequence is that integer. *)
Theorem encode_decode probs (fuel : nat) (enc : Z) symbs :
  NoDup probs.*1 -> positive_probs probs -> 0 <= enc ->
  decode fuel (FSECoder_init probs) enc = Some (Ok symbs) ->
  encode (FSECoder_init probs) symbs = Ok enc.
Proof.
  intros Hnd Hpos Henc Hrun.
  destruct (FSECoder_init_tiled probs Hnd Hpos) as [Hst Hkey].
  destruct (encode_loop_decode_loop (FSECoder_init probs) fuel Hst Hkey)
    with (enc := enc) (acc := @nil Symb) (l := symbs) as (pre & -> & Hpre);
    [|done|done|].
  { unfold keys. simpl. by rewrite Statistics_init_keys. }
  by rewrite app_nil_r.
Qed.

(** X8.  [encode] is injective: on the table of a mapping with positive
    frequencies two sequences with the same code are the same sequence. *)
Theorem encode_injective probs symbs symbs' (enc : Z) :
  NoDup probs.*1 -> positive_probs probs ->
  encode (FSECoder_init probs) symbs = Ok enc ->
  encode (FSECoder_init probs) symbs' = Ok enc ->
  symbs = symbs'.
Proof.
  intros Hnd Hpos Henc Henc'.
  destruct (FSECoder_init_tiled probs Hnd Hpos) as [Hst Hkey].
  pose proof (decode_encode _ _ _ Hst Hkey Henc (length symbs')) as Hdec.
  pose proof (decode_encode _ _ _ Hst Hkey Henc' (length symbs)) as Hdec'.
  rewrite (Nat.add_comm (length symbs')) in Hdec'.
  congruence.
Qed.

End CoderFacts.

(** ** Sizes, alphabets and edge cases *)

Section EdgeFacts.

Context {Symb : Type} `{EqDecision Symb}.

Implicit Types (probs : list (Symb * Z)) (symbs : list Symb).
Implicit Types (self : FSECoder Symb) (e : SymbolStat Symb).

Lemma values_keyed (st : Statistics Symb) (i : nat) e :
  keyed st -> values st !! i = Some e -> symb e ∈ keys st.
Proof.
  intros Hkey Hi. unfold values in Hi. rewrite list_lookup_fmap in Hi.
  destruct (items st !! i) as [[k e0]|] eqn:Hki; [|done].
  simpl in Hi. injection Hi as ->.
  apply list_elem_of_lookup_2 in Hki. rewrite (Hkey _ _ Hki).
  unfold keys. apply list_elem_of_fmap. by exists (k, e).
Qed.

Lemma decode_step_symbol self (enc enc' : Z) (s : Symb) :
  keyed (stats self) -> decode_step self enc = Ok (enc', s) ->
  s ∈ keys (stats self).
Proof.
  intros Hkey Hstep. unfold decode_step, divmod in Hstep.
  destruct (decide (total (stats self) = 0)); [done|]. cbn in Hstep.
  destruct (get_by_cdf_outcome (stats self) (enc mod total (stats self)))
    as [[Hr _]|(i & e & Hr & Hi & _)]; rewrite Hr in Hstep; [done|].
  cbn in Hstep. injection Hstep as <- <-. by apply (values_keyed _ i).
Qed.

Lemma decode_loop_symbols self (fuel : nat) :
  keyed (stats self) ->
  forall (enc : Z) (acc l : list Symb),
    decode_loop fuel self enc acc = Some (Ok l) ->
    Forall (fun s => s ∈ keys (stats self)) acc ->
    Forall (fun s => s ∈ keys (stats self)) l.
Proof.
  intros Hkey. induction fuel as [|fuel IH]; intros enc acc l Hrun Hacc;
    simpl in Hrun.
  - destruct (decide (0 < enc)); [done|]. by injection Hrun as <-.
  - destruct (decide (0 < enc)); [|by injection Hrun as <-].
    destruct (decode_step self enc) as [[enc' s]|err] eqn:Hstep; [|done].
    apply (IH enc' (s :: acc) l Hrun). constructor; [|done].
    by apply (decode_step_symbol self enc enc').
Qed.

(** One step of [encode] makes the code larger, by less than a factor
    [total]. *)
Lemma encode_step_bounds self (enc enc' : Z) (s : Symb) :
  tiled (stats self) -> 0 <= enc -> encode_step self enc s = Ok enc' ->
  enc + 1 <= enc' /\ enc' + 1 <= total (stats self) * (enc + 1).
Proof.
  intros [Ht Htot] Henc Hstep.
  destruct (encode_step_Ok _ _ _ _ Hstep) as (e & He & _ & ->).
  destruct (elem_of_values _ _ _ (getitem_Ok _ _ _ He)) as [i Hi].
  destruct (tiles_bounds _ _ _ _ Ht Hi) as (Hc & Hp & Hend).
  rewrite <- Htot in Hend.
  pose proof (Z.mod_pos_bound enc (prob e) Hp) as Hm.
  pose proof (Z.div_pos enc (prob e) Henc Hp) as Hq.
  pose proof (Z.div_mod enc (prob e) ltac:(lia)) as Hdm.
  set (q := enc / prob e) in *. set (m := enc mod prob e) in *.
  set (T := total (stats self)) in *.
  assert (0 <= q * (T - prob e)) by (apply Z.mul_nonneg_nonneg; lia).
  assert (0 <= T * q * (prob e - 1))
    by (apply Z.mul_nonneg_nonneg; [apply Z.mul_nonneg_nonneg|]; lia).
  assert (0 <= m * (T - 1)) by (apply Z.mul_nonneg_nonneg; lia).
  rewrite Hdm. split; lia.
Qed.

Lemma encode_loop_bounds self symbs :
  tiled (stats self) ->
  forall (enc enc' : Z),
    0 <= enc -> encode_loop self enc symbs = Ok enc' ->
    enc + Z.of_nat (length symbs) <= enc' /\
    enc' + 1 <= total (stats self) ^ Z.of_nat (length symbs) * (enc + 1).
Proof.
  intros Hst. pose proof (tiled_total_pos _ Hst) as Htot.
  induction symbs as [|s symbs IH]; intros enc enc' Henc Hrun; simpl in Hrun.
  - injection Hrun as <-. simpl. lia.
  - destruct (encode_step self enc s) as [enc1|err] eqn:Hstep; cbn in Hrun;
      [|done].
    destruct (encode_step_bounds _ _ _ _ Hst Henc Hstep) as [Hlo Hhi].
    destruct (IH enc1 enc' ltac:(lia) Hrun) as [Hlo' Hhi'].
    rewrite length_cons, Nat2Z.inj_succ, Z.pow_succ_r by lia.
    pose proof (Z.pow_nonneg (total (stats self)) (Z.of_nat (length symbs))
                  ltac:(lia)) as Hpow.
    split; [lia|]. nia.
Qed.

(** X9.  [decode] only returns symbols of the table: every symbol of a
    decoded sequence is a symbol of the mapping the table was built from,
    whatever the frequencies and whatever integer was decoded. *)
Theorem decode_symbols_known probs (fuel : nat) (enc : Z) symbs :
  NoDup probs.*1 ->
  decode fuel (FSECoder_init probs) enc = Some (Ok symbs) ->
  Forall (fun s => s ∈ probs.*1) symbs.
Proof.
  intros Hnd Hrun.
  pose proof (decode_loop_symbols (FSECoder_init probs) fuel
                (Statistics_init_keyed probs Hnd) enc [] symbs Hrun
                (Forall_nil_2 _)) as Hall.
  unfold keys in Hall. simpl in Hall.
  by rewrite Statistics_init_keys in Hall.
Qed.

(** X10.  The size of a code: on the table of a mapping with positive
    frequencies the code of [k] symbols is at least [k] and less than
    [total] to the power [k]. *)
Theorem encode_bounds probs symbs (enc : Z) :
  NoDup probs.*1 -> positive_probs probs ->
  encode (FSECoder_init probs) symbs = Ok enc ->
  Z.of_nat (length symbs) <= enc
  < total (stats (FSECoder_init probs)) ^ Z.of_nat (length symbs).
Proof.
  intros Hnd Hpos Henc.
  destruct (FSECoder_init_tiled probs Hnd Hpos) as [Hst _].
  destruct (encode_loop_bounds _ symbs Hst 0 enc ltac:(lia) Henc). lia.
Qed.

(** X11.  A frequency of zero is accepted by the constructor but makes
    [encode] raise [ZeroDivisionError] as soon as it reaches a symbol that
    has it. *)
Theorem encode_zero_frequency probs symbs (s : Symb) (rest : list Symb) (enc : Z) :
  NoDup probs.*1 -> (s, 0) ∈ probs ->
  encode (FSECoder_init probs) symbs = Ok enc ->
  encode (FSECoder_init probs) (symbs ++ s :: rest) = Raise ZeroDivisionError.
Proof.
  intros Hnd Hin Henc. apply list_elem_of_lookup_1 in Hin as [i Hi].
  unfold encode in *. rewrite encode_loop_app, Henc.
  cbn [encode_loop]. unfold encode_step. simpl stats.
  rewrite Statistics_init_layout by done. simpl items.
  rewrite (getitem_layout probs 1 i s 0 Hnd Hi). cbn.
  unfold divmod. simpl. done.
Qed.

(** X12.  What the docstring of [get_by_cdf] says, on the table of a
    mapping with positive frequencies: the entry returned is the last one
    whose [cdf] is at most the value; every later entry starts above it. *)
Theorem get_by_cdf_last probs (v : Z) e :
  NoDup probs.*1 -> positive_probs probs ->
  get_by_cdf (Statistics_init probs) v = Ok e ->
  exists i : nat,
    values (Statistics_init probs) !! i = Some e /\ cdf e <= v /\
    forall (j : nat) e',
      (i < j)%nat -> values (Statistics_init probs) !! j = Some e' ->
      v < cdf e'.
Proof.
  intros Hnd Hpos Hget.
  destruct (Statistics_init_tiled probs Hnd Hpos) as [Ht _].
  destruct (get_by_cdf_outcome (Statistics_init probs) v)
    as [[Hr _]|(i & e0 & Hr & Hi & Hle & Hq)]; [congruence|].
  assert (e0 = e) as -> by congruence.
  exists i. split; [done|]. split; [done|].
  intros j e' Hij Hj.
  apply lt_at_cdf in Hq as [Hlen|(e1 & He1 & Hlt)].
  - apply lookup_lt_Some in Hj. lia.
  - destruct (decide (j = S i)) as [->|Hne]; [congruence|].
    pose proof (tiles_ordered _ _ (S i) j _ _ Ht ltac:(lia) He1 Hj).
    destruct (tiles_bounds _ _ _ _ Ht He1) as (_ & ? & _). lia.
Qed.

(** X13.  On any table at all, also one with frequencies that are not
    positive, [get_by_cdf] has only two outcomes: its own [ValueError] for
    the value, or an entry of the table whose [cdf] is at most the value.
    It never fails on an index. *)
Theorem get_by_cdf_any_table (st : Statistics Symb) (v : Z) :
  get_by_cdf st v = Raise (ValueError v)
  \/ exists e, e ∈ values st /\ cdf e <= v /\ get_by_cdf st v = Ok e.
Proof.
  destruct (get_by_cdf_outcome st v) as [[Hr _]|(i & e & Hr & Hi & Hle & _)];
    [by left|right].
  exists e. split; [|done]. by apply list_elem_of_lookup_2 in Hi.
Qed.

(** X14.  The coder of the empty mapping: [encode] of a non-empty sequence
    raises the [KeyError] of its first symbol, and [decode] of a positive
    integer raises [ValueError] in its first iteration. *)
Theorem empty_table_fails (s : Symb) (rest : list Symb) (enc : Z) (fuel : nat) :
  0 < enc ->
  encode (FSECoder_init (@nil (Symb * Z))) (s :: rest) = Raise (KeyError s) /\
  decode (S fuel) (FSECoder_init (@nil (Symb * Z))) enc
  = Some (Raise (ValueError 0)).
Proof.
  intros Henc. split; [reflexivity|].
  unfold decode. cbn [decode_loop]. rewrite decide_True by done.
  unfold decode_step, divmod. simpl total.
  rewrite decide_False by done. cbn. by rewrite Z.mod_1_r.
Qed.

(** X15.  [decode] returns at most [enc] symbols for the integer [enc]: on
    the table of a mapping with positive frequencies the length of a decoded
    sequence is bounded by the integer it was decoded from. *)
Theorem decode_length probs (fuel : nat) (enc : Z) symbs :
  NoDup probs.*1 -> positive_probs probs -> 0 <= enc ->
  decode fuel (FSECoder_init probs) enc = Some (Ok symbs) ->
  Z.of_nat (length symbs) <= enc.
Proof.
  intros Hnd Hpos Henc Hrun.
  destruct (FSECoder_init_tiled probs Hnd Hpos) as [Hst Hkey].
  destruct (encode_loop_decode_loop (FSECoder_init probs) fuel Hst Hkey)
    with (enc := enc) (acc := @nil Symb) (l := symbs) as (pre & -> & Hpre);
    [|done|done|].
  { unfold keys. simpl. by rewrite Statistics_init_keys. }
  rewrite app_nil_r.
  destruct (encode_loop_bounds _ pre Hst 0 enc ltac:(lia) Hpre). lia.
Qed.

End EdgeFacts.

(** ** Concrete runs of the further properties *)

(** X5 at the second pair of [{'a': 3, 'b': -2}]. *)
Lemma Statistics_getitem_neg :
  getitem (items (Statistics_init probs_neg)) "b"%string
  = Ok (mkStat "b"%string (-2) (1 + sum_probs (take 1 probs_neg))).
Proof.
  apply (Statistics_getitem probs_neg 1 "b"%string (-2)).
  - by apply (bool_decide_unpack _).
  - reflexivity.
Defined.

(** X7 at the integer 5 on the table of [{'a': 1, 'b': 1}]. *)
Lemma encode_decode_5 : encode coder_ab ["a"; "b"]%string = Ok 5.
Proof.
  apply (encode_decode probs_ab 2 5 ["a"; "b"]%string).
  - by apply (bool_decide_unpack _).
  - by repeat constructor.
  - lia.
  - reflexivity.
Defined.

(** X8 at the code 5. *)
Lemma encode_injective_5 :
  encode coder_ab ["a"; "b"]%string = Ok 5 /\
  ["a"; "b"]%string = ["a"; "b"]%string.
Proof.
  split; [reflexivity|].
  apply (encode_injective probs_ab ["a"; "b"]%string ["a"; "b"]%string 5).
  - by apply (bool_decide_unpack _).
  - by repeat constructor.
  - reflexivity.
  - reflexivity.
Defined.

(** X9 at the integer 5. *)
Lemma decode_symbols_known_5 :
  Forall (fun s => s ∈ probs_ab.*1) ["a"; "b"]%string.
Proof.
  apply (decode_symbols_known probs_ab 2 5 ["a"; "b"]%string).
  - by apply (bool_decide_unpack _).
  - reflexivity.
Defined.

(** X10 at the sequence [a, b]: 2 <= 5 < 3 ^ 2. *)
Lemma encode_bounds_ab :
  Z.of_nat (length ["a"; "b"]%string) <= 5
  < total (stats (FSECoder_init probs_ab)) ^ Z.of_nat (length ["a"; "b"]%string).
Proof.
  apply (encode_bounds probs_ab ["a"; "b"]%string 5).
  - by apply (bool_decide_unpack _).
  - by repeat constructor.
  - reflexivity.
Defined.

(** X11 at the mapping [{'a': 0}]. *)
Lemma encode_zero_frequency_a :
  encode (FSECoder_init probs_zero) ([] ++ ["a"%string])
  = Raise ZeroDivisionError.
Proof.
  apply (encode_zero_frequency probs_zero [] "a"%string [] 0).
  - by apply (bool_decide_unpack _).
  - by left.
  - reflexivity.
Defined.

(** X12 at the value 2 on the table of [{'a': 1, 'b': 1}]. *)
Lemma get_by_cdf_last_ab :
  exists i : nat,
    values (Statistics_init probs_ab) !! i = Some (mkStat "b"%string 1 2) /\
    cdf (mkStat "b"%string 1 2) <= 2 /\
    forall (j : nat) e',
      (i < j)%nat -> values (Statistics_init probs_ab) !! j = Some e' ->
      2 < cdf e'.
Proof.
  apply (get_by_cdf_last probs_ab 2 (mkStat "b"%string 1 2)).
  - by apply (bool_decide_unpack _).
  - by repeat constructor.
  - reflexivity.
Defined.

(** X14 at the sequence [a] and the integer 1. *)
Lemma empty_table_fails_a :
  encode (FSECoder_init (@nil (string * Z))) ["a"%string]
  = Raise (KeyError "a"%string) /\
  decode 1 (FSECoder_init (@nil (string * Z))) 1 = Some (Raise (ValueError 0)).
Proof. apply (empty_table_fails "a"%string [] 1 0). lia. Defined.

(** X15 at the integer 5. *)
Lemma decode_length_5 :
  decode 2 coder_ab 5 = Some (Ok ["a"; "b"]%string) /\
  Z.of_nat (length ["a"; "b"]%string) <= 5.
Proof.
  split; [reflexivity|].
  apply (decode_length probs_ab 2 5 ["a"; "b"]%string).
  - by apply (bool_decide_unpack _).
  - by repeat constructor.
  - lia.
  - reflexivity.
Defined.
